(** * node-pushover: the multipart encoder, the dispatcher and the error path

    A shallow embedding of the module that exports the [Pushover] client and
    a verification of its payload encoder [reqString2MP], of the request
    construction in [Pushover.prototype.send], of the completion protocol of
    [send], of [Pushover.prototype.errors] and of the sound-table refresh.

    Representation choices, fixed once for the whole development:

    - a JavaScript string is represented by its UTF-8 encoding, a Rocq
      [string] (a sequence of bytes); only well-formed strings (no lone
      surrogates) are represented, so that [+] is [append] and
      [Buffer.from(s, 'utf8')] is the byte sequence itself;
    - a [Buffer] is a [list byte];
    - a JavaScript object used as a record or map is an association list that
      keeps insertion order, with the enumeration order of [for ... in] and
      [Object.keys] written out (array-index keys first, in ascending order);
      property names are ordinary names: inherited properties and the
      accessor [__proto__] are not modelled;
    - user callbacks ([onerror], the completion handler of [send]) are
      recorded in a log of calls and are assumed to return normally;
    - the platform functions that the file only calls ([JSON.parse],
      [fs.readFileSync], [url.parse]) are parameters of the sections that use
      them; [querystring] and [path.basename] are modelled concretely. *)

From Stdlib Require Import String Ascii List Bool Arith NArith Lia Permutation.
From Stdlib Require Import Strings.Byte SpecFloat DecimalString Sorted.
Import ListNotations.

Set Warnings "-register-all".

Open Scope list_scope.
Open Scope string_scope.

(** ** Characters and strings *)

Definition DQUOTE : string := String (ascii_of_nat 34) EmptyString.
Definition CRLF : string :=
  String (ascii_of_nat 13) (String (ascii_of_nat 10) EmptyString).

(** [Array.prototype.join] on an array of strings. *)
Definition join (sep : string) (a : list string) : string := String.concat sep a.

Fixpoint contains (c : ascii) (s : string) : bool :=
  match s with
  | EmptyString => false
  | String d r => Ascii.eqb d c || contains c r
  end.

Definition is_empty (s : string) : bool :=
  match s with EmptyString => true | _ => false end.

(** [suffix t s]: [s] ends with [t]. *)
Definition suffix (t s : string) : bool :=
  (String.length t <=? String.length s)%nat &&
  String.eqb (substring (String.length s - String.length t) (String.length t) s) t.

Definition quoted (s : string) : string := DQUOTE ++ s ++ DQUOTE.

(** ** Buffers *)

Definition Buffer := list byte.

Definition Buffer_from_utf8 (s : string) : Buffer := list_byte_of_string s.

(** [Buffer.from(buf, 'binary')] on a [Buffer] copies it; the encoding
    argument is only consulted for strings. *)
Definition Buffer_from_binary (d : Buffer) : Buffer := d.

Definition Buffer_concat (l : list Buffer) : Buffer := List.concat l.

(** ** JavaScript objects as insertion-ordered property lists *)

Module Obj.
Section Props.
Context {V : Type}.

Definition t := list (string * V).

Fixpoint get (o : t) (k : string) : option V :=
  match o with
  | [] => None
  | (k', v) :: r => if String.eqb k' k then Some v else get r k
  end.

(** [o[k] = v]: an existing property keeps its place, a new one goes last. *)
Fixpoint set (o : t) (k : string) (v : V) : t :=
  match o with
  | [] => [(k, v)]
  | (k', v') :: r =>
      if String.eqb k' k then (k, v) :: r else (k', v') :: set r k v
  end.

Definition keys (o : t) : list string := map fst o.

Definition wf (o : t) : Prop := NoDup (keys o).

(** *** Enumeration order

    [OrdinaryOwnPropertyKeys]: the keys that are array indices (canonical
    decimal strings below 2^32 - 1) come first, in ascending numeric order,
    then the other string keys in insertion order. *)

Definition is_digit (c : ascii) : bool :=
  ((48 <=? nat_of_ascii c) && (nat_of_ascii c <=? 57))%nat.

Fixpoint digits_value (s : string) (acc : N) : option N :=
  match s with
  | EmptyString => Some acc
  | String c r =>
      if is_digit c then digits_value r (10 * acc + (N_of_ascii c - 48))%N
      else None
  end.

Definition array_index (s : string) : option N :=
  match s with
  | EmptyString => None
  | String c r =>
      if Ascii.eqb c "0" && negb (is_empty r) then None
      else match digits_value s 0 with
           | Some n => if (n <? 4294967295)%N then Some n else None
           | None => None
           end
  end.

Fixpoint insert_by_index (x : N * (string * V)) (l : list (N * (string * V)))
  : list (N * (string * V)) :=
  match l with
  | [] => [x]
  | y :: r =>
      if (fst x <=? fst y)%N then x :: l else y :: insert_by_index x r
  end.

Definition tag_index (kv : string * V) : list (N * (string * V)) :=
  match array_index (fst kv) with
  | Some n => [(n, kv)]
  | None => []
  end.

Definition index_props (o : t) : list (N * (string * V)) :=
  fold_right insert_by_index [] (flat_map tag_index o).

Definition named_props (o : t) : t :=
  filter (fun kv => match array_index (fst kv) with
                    | None => true
                    | Some _ => false
                    end) o.

(** The (key, value) pairs in the order [for (p in o)] visits them. *)
Definition for_in (o : t) : t :=
  (map snd (index_props o) ++ named_props o)%list.

End Props.
Arguments t : clear implicits.
End Obj.

(** ** querystring *)

Module Qs.

(** The characters [querystring.escape] leaves alone:
    [A-Z a-z 0-9 - _ . ! ~ * ' ( )]. *)
Definition unreserved (c : ascii) : bool :=
  let n := nat_of_ascii c in
  (((65 <=? n) && (n <=? 90)) || ((97 <=? n) && (n <=? 122)) ||
   ((48 <=? n) && (n <=? 57)) ||
   (n =? 45) || (n =? 95) || (n =? 46) || (n =? 33) || (n =? 126) ||
   (n =? 42) || (n =? 39) || (n =? 40) || (n =? 41))%nat.

Definition hex_digit (n : nat) : ascii :=
  if (n <? 10)%nat then ascii_of_nat (48 + n) else ascii_of_nat (55 + n).

Definition escape_byte (c : ascii) : string :=
  if unreserved c then String c EmptyString
  else let n := nat_of_ascii c in
       String "%" (String (hex_digit (n / 16))
                          (String (hex_digit (n mod 16)) EmptyString)).

(** [querystring.escape]: every byte of the UTF-8 encoding that is not
    unreserved becomes [%XX] (upper-case hexadecimal). *)
Fixpoint escape (s : string) : string :=
  match s with
  | EmptyString => EmptyString
  | String c r => escape_byte c ++ escape r
  end.

Definition unhex (c : ascii) : option nat :=
  let n := nat_of_ascii c in
  if ((48 <=? n) && (n <=? 57))%nat then Some (n - 48)
  else if ((65 <=? n) && (n <=? 70))%nat then Some (n - 55)
  else if ((97 <=? n) && (n <=? 102))%nat then Some (n - 87)
  else None.

(** Percent-decoding as [querystring.unescape] does it: [%XX] with two
    hexadecimal digits is one byte, any other [%] stays.  The replacement
    of ill-formed UTF-8 by U+FFFD that follows in Node is outside the
    model: the result is exact when the decoded bytes are well-formed
    UTF-8, as they are for every output of [escape]. *)
Fixpoint unescape (s : string) : string :=
  match s with
  | EmptyString => EmptyString
  | String c r =>
      if Ascii.eqb c "%" then
        match r with
        | String h (String l r') =>
            match unhex h, unhex l with
            | Some a, Some b => String (ascii_of_nat (16 * a + b)) (unescape r')
            | _, _ => String c (unescape r)
            end
        | _ => String c (unescape r)
        end
      else String c (unescape r)
  end.

Fixpoint plus_to_space (s : string) : string :=
  match s with
  | EmptyString => EmptyString
  | String c r =>
      String (if Ascii.eqb c "+" then " "%char else c) (plus_to_space r)
  end.

Definition decode (s : string) : string := unescape (plus_to_space s).

(** [String.prototype.split] on a one-character separator. *)
Fixpoint split_on (sep : ascii) (s : string) : list string :=
  match s with
  | EmptyString => [EmptyString]
  | String c r =>
      if Ascii.eqb c sep then EmptyString :: split_on sep r
      else match split_on sep r with
           | h :: t => String c h :: t
           | [] => [String c EmptyString]
           end
  end.

(** Cut a segment at its first [=]. *)
Fixpoint cut_eq (s : string) : option (string * string) :=
  match s with
  | EmptyString => None
  | String c r =>
      if Ascii.eqb c "=" then Some (EmptyString, r)
      else match cut_eq r with
           | Some (k, v) => Some (String c k, v)
           | None => None
           end
  end.

(** A value of the object [querystring.parse] returns: a string, or an
    array of strings when the key occurred more than once. *)
Inductive value :=
| QStr (s : string)
| QArr (l : list string).

Definition parse_segment (seg : string) : option (string * string) :=
  match cut_eq seg with
  | Some (k, v) => Some (decode k, decode v)
  | None => if is_empty seg then None else Some (decode seg, EmptyString)
  end.

Definition addKeyValue (o : Obj.t value) (k v : string) : Obj.t value :=
  match Obj.get o k with
  | None => Obj.set o k (QStr v)
  | Some (QStr c) => Obj.set o k (QArr [c; v])
  | Some (QArr l) => Obj.set o k (QArr (l ++ [v])%list)
  end.

(** What the parser does with one segment between two [&]. *)
Definition add_seg (o : Obj.t value) (seg : string) : Obj.t value :=
  match parse_segment seg with
  | Some (k, v) => addKeyValue o k v
  | None => o
  end.

(** The default of [options.maxKeys]. *)
Definition maxKeys : nat := 1000.

(** [querystring.parse(rs)] with the default separators and options: the
    segments between two [&] are taken in order, and no more than
    [maxKeys] of them are looked at, empty ones included; what follows
    the last of these is dropped. *)
Definition parse (rs : string) : Obj.t value :=
  fold_left add_seg (firstn maxKeys (split_on "&" rs)) [].

(** One [key=value] pair of the output of [stringify]. *)
Definition pair_str {V} (prim : V -> string) (kv : string * V) : string :=
  escape (fst kv) ++ "=" ++ escape (prim (snd kv)).

(** [querystring.stringify(o)]: [prim] is [stringifyPrimitive] on the
    values of [o]. *)
Definition stringify {V} (prim : V -> string) (o : Obj.t V) : string :=
  join "&" (map (pair_str prim) (Obj.for_in o)).

(** [String(v)] for a parsed value ([Array.prototype.toString] joins with
    a comma). *)
Definition to_string (v : value) : string :=
  match v with
  | QStr s => s
  | QArr l => join "," l
  end.

(** [v !== ''] *)
Definition not_empty_string (v : value) : bool :=
  match v with
  | QStr s => negb (is_empty s)
  | QArr _ => true
  end.

End Qs.

(** ** path.basename (POSIX flavour) *)

Module Path.

Fixpoint drop_slashes (l : list ascii) : list ascii :=
  match l with
  | c :: r => if Ascii.eqb c "/" then drop_slashes r else l
  | [] => []
  end.

Fixpoint take_segment (l : list ascii) : list ascii :=
  match l with
  | c :: r => if Ascii.eqb c "/" then [] else c :: take_segment r
  | [] => []
  end.

(** Scan from the end: skip the trailing separators, then keep everything
    up to the next separator. *)
Definition basename (p : string) : string :=
  string_of_list_ascii
    (rev (take_segment (drop_slashes (rev (list_ascii_of_string p))))).

End Path.

(** ** Values *)

(** What [JSON.parse] returns, plus [undefined] for a missing member. *)
Inductive jsval :=
| JUndefined
| JNull
| JBool (b : bool)
| JNum (x : spec_float)
| JStr (s : string)
| JArr (l : list jsval)
| JObj (props : list (string * jsval)).

Definition truthy (v : jsval) : bool :=
  match v with
  | JUndefined | JNull => false
  | JBool b => b
  | JNum (S754_zero _) | JNum S754_nan => false
  | JNum _ => true
  | JStr s => negb (is_empty s)
  | JArr _ | JObj _ => true
  end.

(** The attachment object [{name, data, type?}]. *)
Module ImgObj.
Record t := mk {
  name : string;
  data : Buffer;
  type : option string   (* [None]: no own property [type] *)
}.
End ImgObj.

(** A property value of a message record: a string, an attachment object
    (for [file]) or [undefined]. *)
Inductive mval :=
| MUndef
| MStr (s : string)
| MImg (i : ImgObj.t).

(** [!v] *)
Definition falsy (v : mval) : bool :=
  match v with
  | MUndef => true
  | MStr s => is_empty s
  | MImg _ => false
  end.

(** [v !== ''] *)
Definition not_empty_string (v : mval) : bool :=
  match v with
  | MStr s => negb (is_empty s)
  | _ => true
  end.

(** [o[k]] on a message record: a missing property reads as [undefined]. *)
Definition mget (o : Obj.t mval) (k : string) : mval :=
  match Obj.get o k with
  | Some v => v
  | None => MUndef
  end.

(** Values of the request options handed to [http.request]. *)
Inductive oval :=
| OUndef
| ONull
| OBool (b : bool)
| ONum (n : nat)
| OStr (s : string)
| OObj (props : list (string * oval)).

Definition otruthy (v : oval) : bool :=
  match v with
  | OUndef | ONull => false
  | OBool b => b
  | ONum n => negb (n =? 0)%nat
  | OStr s => negb (is_empty s)
  | OObj _ => true
  end.

Definition oget (o : Obj.t oval) (k : string) : oval :=
  match Obj.get o k with
  | Some v => v
  | None => OUndef
  end.

Record response := { statusCode : nat }.

(** ** Effects: thrown values, the log of observable calls, the monad *)

Inductive thrown :=
| SyntaxError (text : string)        (* [JSON.parse] rejected [text] *)
| TypeError (msg : string)
| ErrorOf (v : jsval)                (* [new Error(v)] *)
| IOError (path : string).           (* [fs.readFileSync] failed *)

Inductive errarg :=
| EThrown (e : thrown)
| EVal (v : jsval).

Inductive call :=
| Onerror (e : errarg) (res : option response)
| Fn (err : jsval) (data : option string) (res : option response)
| ConsoleLog (line : string)
| Uncaught (e : thrown).

Inductive outcome (A : Type) :=
| Ret (a : A)
| Throw (e : thrown).
Arguments Ret {A} a.
Arguments Throw {A} e.

(** A computation: the calls it made, in order, and how it ended. *)
Definition M (A : Type) : Type := list call * outcome A.

Definition ret {A} (a : A) : M A := ([], Ret a).
Definition throw {A} (e : thrown) : M A := ([], Throw e).
Definition emit (c : call) : M unit := ([c], Ret tt).

Definition bind {A B} (m : M A) (k : A -> M B) : M B :=
  match m with
  | (l, Ret a) => let (l', r) := k a in ((l ++ l')%list, r)
  | (l, Throw e) => (l, Throw e)
  end.

(** [try { m } catch (e) { h e }] *)
Definition try_catch {A} (m : M A) (h : thrown -> M A) : M A :=
  match m with
  | (l, Ret a) => (l, Ret a)
  | (l, Throw e) => let (l', r) := h e in ((l ++ l')%list, r)
  end.

Declare Scope js_scope.
Delimit Scope js_scope with js.
Notation "x <- m ;; k" := (bind m (fun x => k))
  (at level 61, m at next level, right associativity) : js_scope.
Notation "m ;; k" := (bind m (fun _ => k))
  (at level 61, right associativity) : js_scope.

Definition calls {A} (m : M A) : list call := fst m.
Definition result {A} (m : M A) : outcome A := snd m.

(** What the transport reports for one request. *)
Inductive event :=
| Response (res : response)
| Data (chunk : string)
| End
| Error (e : jsval).

(** ** The platform *)

(** The functions of Node and of the language that the client calls and
    that are not part of the repository.  [None] stands for a thrown
    exception. *)
Class Platform := {
  JSON_parse : string -> option jsval;
  readFileSync : string -> option Buffer;
  url_parse : string -> Obj.t oval
}.

(** ** The client module *)

Definition pUrl : string := "https://api.pushover.net/1/messages.json".

Definition def : list string :=
  ["device"; "title"; "url"; "url_title"; "priority"; "timestamp"; "sound"].

(** The body of the loop of [setDefaults], for the key [k = def[i]]. *)
Definition fill (o : Obj.t mval) (k : string) : Obj.t mval :=
  if falsy (mget o k) then Obj.set o k (MStr "") else o.

(** [setDefaults(o)]: the loop over [def], on the record it mutates. *)
Definition setDefaults (o : Obj.t mval) : Obj.t mval := fold_left fill def o.

Definition loadImage `{Platform} (imgPath : string) : M ImgObj.t :=
  match readFileSync imgPath with
  | Some bytes => ret (ImgObj.mk (Path.basename imgPath) bytes None)
  | None => throw (IOError imgPath)
  end.

Definition content_disposition (p : string) : string :=
  "Content-Disposition: form-data; name=" ++ DQUOTE ++ p ++ DQUOTE.

Definition attachment_disposition (name : string) : string :=
  "Content-Disposition: form-data; name=" ++ DQUOTE ++ "attachment" ++ DQUOTE
  ++ "; filename=" ++ DQUOTE ++ name ++ DQUOTE.

(** [a.splice(-1, 1)]: drop the last element. *)
Definition splice_last (a : list string) : list string := removelast a.

(** The lines pushed by the [for (var p in o)] loop of [reqString2MP];
    [pv] is the pair of [p] and [o[p]]. *)
Definition push_fields (b : string) (o : Obj.t Qs.value) (a : list string)
  : list string :=
  fold_left (fun a pv =>
               if Qs.not_empty_string (snd pv)
               then (a ++ [content_disposition (fst pv); "";
                           Qs.to_string (snd pv); b])%list
               else a)
            (Obj.for_in o) a.

Definition reqString2MP (rs b : string) (imgObj : option ImgObj.t) : Buffer :=
  let o := Qs.parse rs in
  let a := [b] in
  let a := push_fields b o a in
  let a :=
    match imgObj with
    | Some img =>
        (a ++ [attachment_disposition (ImgObj.name img)]
           ++ [match ImgObj.type img with
               | Some ty => ("Content-Type: " ++ ty)%string
               | None => "Content-Type: application/octet-stream"
               end]
           ++ [""] ++ [""])%list
    | None => splice_last a
    end in
  match imgObj with
  | Some img =>
      Buffer_concat [Buffer_from_utf8 (join CRLF a);
                     Buffer_from_binary (ImgObj.data img);
                     Buffer_from_utf8 (CRLF ++ b ++ "--" ++ CRLF)]
  | None =>
      Buffer_concat [Buffer_from_utf8 (join CRLF a);
                     Buffer_from_utf8 (b ++ "--" ++ CRLF)]
  end.

(** *** The client *)

Definition default_sounds : jsval :=
  JObj [("pushover", JStr "Pushover (default)"); ("bike", JStr "Bike");
        ("bugle", JStr "Bugle"); ("cashregister", JStr "Cash Register");
        ("classical", JStr "Classical"); ("cosmic", JStr "Cosmic");
        ("falling", JStr "Falling"); ("gamelan", JStr "Gamelan");
        ("incoming", JStr "Incoming"); ("intermission", JStr "Intermission");
        ("magic", JStr "Magic"); ("mechanical", JStr "Mechanical");
        ("pianobar", JStr "Piano Bar"); ("siren", JStr "Siren");
        ("spacealarm", JStr "Space Alarm"); ("tugboat", JStr "Tug Boat");
        ("alien", JStr "Alien Alarm (long)"); ("climb", JStr "Climb (long)");
        ("persistent", JStr "Persistent (long)");
        ("echo", JStr "Pushover Echo (long)");
        ("updown", JStr "Up Down (long)"); ("none", JStr "None (silent)")].

(** The options of the constructor.  A credential that is missing is the
    empty string: both are falsy and both are sent as nothing. *)
Module Opts.
Record t := mk {
  token : string;
  user : string;
  httpOptions : option (Obj.t oval);
  debug : bool;
  onerror : bool;          (* whether a handler was passed *)
  update_sounds : bool
}.
End Opts.

Module Client.
Record t := mk {
  boundary : string;
  token : string;
  user : string;
  httpOptions : option (Obj.t oval);
  sounds : jsval;
  debug : bool;
  onerror : bool           (* whether [this.onerror] is set *)
}.

Definition with_sounds (self : t) (s : jsval) : t :=
  mk (boundary self) (token self) (user self) (httpOptions self) s
     (debug self) (onerror self).
End Client.

(** [s.substring(n)] *)
Definition substring_from (n : nat) (s : string) : string :=
  substring n (String.length s - n) s.

(** The constructor.  [random36] is the value of
    [Math.random().toString(36)] drawn by this call; the refresh that
    [update_sounds] starts is the event handling of [updateSounds] below. *)
Definition Pushover (opts : Opts.t) (random36 : string) : Client.t :=
  Client.mk ("--" ++ substring_from 2 random36)
            (Opts.token opts) (Opts.user opts) (Opts.httpOptions opts)
            default_sounds (Opts.debug opts) (Opts.onerror opts).

(** *** errors *)

(** [v[k]] for the members the client reads ([errors], [sounds], [0]);
    reading a member of [null] or [undefined] throws.  The character of a
    string at an index is its byte there, which is the UTF-16 unit for
    ASCII text. *)
Definition get_member (v : jsval) (k : string) : M jsval :=
  match v with
  | JUndefined | JNull =>
      throw (TypeError ("Cannot read properties of null or undefined, reading "
                        ++ k))
  | JObj props =>
      ret (match Obj.get props k with Some x => x | None => JUndefined end)
  | JArr l =>
      ret (match Obj.array_index k with
           | Some n => nth (N.to_nat n) l JUndefined
           | None => JUndefined
           end)
  | JStr s =>
      ret (match Obj.array_index k with
           | Some n => match String.get (N.to_nat n) s with
                       | Some c => JStr (String c EmptyString)
                       | None => JUndefined
                       end
           | None => JUndefined
           end)
  | JBool _ | JNum _ => ret JUndefined
  end.

(** [this.onerror(e, res)] *)
Definition call_onerror (self : Client.t) (e : errarg) (res : option response)
  : M unit :=
  if Client.onerror self then emit (Onerror e res)
  else throw (TypeError "this.onerror is not a function").

Section WithPlatform.
Context `{Platform}.
Local Open Scope js_scope.

Definition errors (self : Client.t) (d : jsval) (res : option response)
  : M unit :=
  d <- match d with
       | JStr s =>
           match JSON_parse s with
           | Some v => ret v
           | None => call_onerror self (EThrown (SyntaxError s)) res ;; ret d
           end
       | _ => ret d
       end ;;
  e <- get_member d "errors" ;;
  if truthy e then
    e0 <- get_member e "0" ;;
    if Client.onerror self then emit (Onerror (EVal e0) res)
    else throw (ErrorOf e0)
  else ret tt.

(** *** updateSounds *)

(** The listener of the response's [end] event. *)
Definition updateSounds_end (self : Client.t) (data : string)
           (res : option response) : M Client.t :=
  try_catch
    (j <- match JSON_parse data with
          | Some v => ret v
          | None => throw (SyntaxError data)
          end ;;
     errors self (JStr data) res ;;
     s <- get_member j "sounds" ;;
     ret (Client.with_sounds self s))
    (fun _ =>
       errors self (JStr "Pushover: parsing sound data failed") res ;;
       ret self).

(** The listener of the request's [error] event. *)
Definition updateSounds_error (self : Client.t) (e : jsval) : M Client.t :=
  errors self e None ;; ret self.

(** The request [updateSounds] issues: the options it passes to
    [https.request]; nothing is written to the body. *)
Definition updateSounds_request (self : Client.t) : Obj.t oval :=
  url_parse ("https://api.pushover.net/1/sounds.json?token="
             ++ Client.token self).

(** One event of the refresh request.  [data] is the variable of
    [updateSounds] the chunks are appended to; the [data] and [end]
    listeners exist once the response callback ran. *)
Record refresh := {
  r_data : string;
  r_res : option response
}.

Definition updateSounds_step (st : Client.t * refresh) (ev : event)
  : M (Client.t * refresh) :=
  let (self, r) := st in
  match ev, r_res r with
  | Response res, _ => ret (self, {| r_data := r_data r; r_res := Some res |})
  | Data chunk, Some _ =>
      ret (self, {| r_data := r_data r ++ chunk; r_res := r_res r |})
  | End, Some res =>
      self' <- updateSounds_end self (r_data r) (Some res) ;;
      ret (self', r)
  | Error e, _ => self' <- updateSounds_error self e ;; ret (self', r)
  | _, None => ret st
  end.

(** *** send *)

Definition stringifyPrimitive (v : mval) : string :=
  match v with
  | MStr s => s
  | _ => EmptyString
  end.

(** [self.token || obj.token] *)
Definition credential (stored : string) (given : mval) : mval :=
  if is_empty stored then given else MStr stored.

(** The object literal [reqString] starts from. *)
Definition base (self : Client.t) (obj : Obj.t mval) : Obj.t mval :=
  [("token", credential (Client.token self) (mget obj "token"));
   ("user", credential (Client.user self) (mget obj "user"))].

(** The body of the [for (p in obj)] loop of [send], for the property
    [pv = (p, obj[p])]. *)
Definition copy (reqString : Obj.t mval) (pv : string * mval) : Obj.t mval :=
  if not_empty_string (snd pv) then
    if negb (String.eqb (fst pv) "file")
    then Obj.set reqString (fst pv) (snd pv)
    else reqString
  else reqString.

(** The object [reqString] before it is stringified: the two credentials,
    then the [for (p in obj)] loop. *)
Definition build_reqString (self : Client.t) (obj : Obj.t mval)
  : Obj.t mval :=
  fold_left copy (Obj.for_in obj) (base self obj).

(** The payload [mp], by the three cases of [obj.file]. *)
Definition build_payload (rs b : string) (file : mval) : M Buffer :=
  if negb (falsy file) then
    match file with
    | MStr path => img <- loadImage path ;; ret (reqString2MP rs b (Some img))
    | MImg img => ret (reqString2MP rs b (Some img))
    | MUndef => throw (TypeError "Cannot read properties of undefined")
    end
  else ret (reqString2MP rs b None).

(** The attachment handed to the encoder, read off the same three cases:
    the file loaded from a path, the object as it is, or none. *)
Definition resolve_attachment (file : mval) : M (option ImgObj.t) :=
  match file with
  | MImg img => ret (Some img)
  | MStr path =>
      if is_empty path then ret None
      else img <- loadImage path ;; ret (Some img)
  | MUndef => ret None
  end.

(** The headers [send] assigns to [o.headers]. *)
Definition headers (self : Client.t) (mp : Buffer) : oval :=
  OObj [("Content-type",
         OStr ("multipart/form-data; boundary="
               ++ substring_from 2 (Client.boundary self)));
        ("Content-Length", ONum (List.length mp))].

Definition copy_httpOptions (httpOpts o : Obj.t oval) : Obj.t oval :=
  fold_left (fun o kv =>
               if negb (String.eqb (fst kv) "proxy")
               then Obj.set o (fst kv) (snd kv) else o)
            (Obj.for_in httpOpts) o.

(** [httpOpts.hasOwnProperty('proxy') && httpOpts.proxy &&
    httpOpts.proxy !== ''] *)
Definition proxy_given (httpOpts : Obj.t oval) : bool :=
  match Obj.get httpOpts "proxy" with
  | Some v => otruthy v
  | None => false
  end.

(** The three assignments of the proxy branch.  [url.parse] throws on a
    value that is not a string; assigning a member of a primitive is
    ignored, of [null] or [undefined] throws. *)
Definition apply_proxy (httpOpts o : Obj.t oval) : M (Obj.t oval) :=
  match oget httpOpts "proxy" with
  | OStr p =>
      let proxy := url_parse p in
      o <- match oget o "headers" with
           | OObj h =>
               ret (Obj.set o "headers" (OObj (Obj.set h "Host" (oget o "host"))))
           | OUndef | ONull =>
               throw (TypeError "Cannot set properties of undefined")
           | _ => ret o
           end ;;
      let o := Obj.set o "host" (oget proxy "hostname") in
      ret (Obj.set o "protocol" (oget proxy "protocol"))
  | _ => throw (TypeError "The url argument must be of type string")
  end.

Inductive transport := Http | Https.

(** [pUrl.match(/http:/)] *)
Definition pUrl_is_http : bool :=
  match String.index 0 "http:" pUrl with
  | Some _ => true
  | None => false
  end.

Record request := {
  via : transport;
  options : Obj.t oval;
  payload : Buffer
}.

(** [String.prototype.replace] with a string pattern: the first
    occurrence only. *)
Definition replace_first (pat rep s : string) : string :=
  match String.index 0 pat s with
  | Some n =>
      substring 0 n s ++ rep ++ substring_from (n + String.length pat) s
  | None => s
  end.

(** The string [reqString] that [send] computes for a message. *)
Definition request_string (self : Client.t) (obj : Obj.t mval) : string :=
  Qs.stringify stringifyPrimitive (build_reqString self (setDefaults obj)).

(** [self.httpOptions || {}] *)
Definition httpOpts_of (self : Client.t) : Obj.t oval :=
  match Client.httpOptions self with
  | Some h => h
  | None => []
  end.

(** The synchronous part of [send]: the request it hands to the transport
    and the payload it writes to it.  The call [request(o, ...)] is taken
    to return the request object: what the transport does with the
    options, a refusal included, is not part of the model. *)
Definition send (self : Client.t) (obj : Obj.t mval) : M request :=
  let o := url_parse pUrl in
  let o := Obj.set o "method" (OStr "POST") in
  let obj := setDefaults obj in
  let reqString := build_reqString self obj in
  let reqString := Qs.stringify stringifyPrimitive reqString in
  mp <- build_payload reqString (Client.boundary self) (mget obj "file") ;;
  let o := Obj.set o "headers" (headers self mp) in
  let httpOpts := httpOpts_of self in
  let o := copy_httpOptions httpOpts o in
  o <- (if proxy_given httpOpts then apply_proxy httpOpts o else ret o) ;;
  let request :=
    if otruthy (oget httpOpts "proxy") || pUrl_is_http then Http else Https in
  (if Client.debug self
   then emit (ConsoleLog
                (replace_first (Client.user self) "XXXXX"
                   (replace_first (Client.token self) "XXXXX" reqString)))
   else ret tt) ;;
  ret {| via := request; options := o; payload := mp |}.

(** The asynchronous part of [send].  [fn] says whether the variable [fn]
    still holds the caller's handler; [resp] holds the response and the
    [data] accumulated for it once the response callback ran. *)
Record pending := {
  fn : bool;
  resp : option (response * string)
}.

Definition send_step (self : Client.t) (st : pending) (ev : event)
  : M pending :=
  match ev, resp st with
  | Response res, _ =>
      (if Client.debug self
       then emit (ConsoleLog (NilEmpty.string_of_uint (Nat.to_uint (statusCode res))))
       else ret tt) ;;
      ret {| fn := fn st; resp := Some (res, "") |}
  | Data chunk, Some (res, data) =>
      ret {| fn := fn st; resp := Some (res, data ++ chunk) |}
  | End, Some (res, data) =>
      errors self (JStr data) (Some res) ;;
      (if fn st then emit (Fn JUndefined (Some data) (Some res)) else ret tt) ;;
      ret st
  | Error err, _ =>
      (if fn st then emit (Fn err None None) else ret tt) ;;
      ret {| fn := false; resp := resp st |}
  | _, None => ret st
  end.

End WithPlatform.

(** Events are delivered one per turn of the event loop: an exception that
    leaves a listener is recorded as uncaught and the state is the one the
    listener had reached before (no listener above assigns before it can
    throw). *)
Fixpoint deliver {S : Type} (step : S -> event -> M S) (st : S)
         (evs : list event) : list call * S :=
  match evs with
  | [] => ([], st)
  | ev :: r =>
      match step st ev with
      | (l, Ret st') =>
          let (l', s') := deliver step st' r in ((l ++ l')%list, s')
      | (l, Throw e) =>
          let (l', s') := deliver step st r in ((l ++ Uncaught e :: l')%list, s')
      end
  end.

(** The events that reach no listener with a call of the handler in it:
    the response itself and its chunks. *)
Definition quiet (ev : event) : bool :=
  match ev with
  | Response _ | Data _ => true
  | End | Error _ => false
  end.

(** How often, and with what, the completion handler was called. *)
Definition fn_calls (l : list call) : list call :=
  filter (fun c => match c with Fn _ _ _ => true | _ => false end) l.

(** [send(obj, fn)] followed by the events of its request: the calls made
    once the request was issued. *)
Definition send_events `{Platform} (self : Client.t) (has_fn : bool)
           (evs : list event) : list call :=
  fst (deliver (send_step self) {| fn := has_fn; resp := None |} evs).

(** ** The body in terms of parts *)

(** The (name, value) pairs [reqString2MP] emits a part for: the properties
    of the parsed request string, in enumeration order, whose value is not
    the empty string. *)
Definition text_parts (rs : string) : list (string * string) :=
  map (fun pv => (fst pv, Qs.to_string (snd pv)))
      (filter (fun pv => Qs.not_empty_string (snd pv))
              (Obj.for_in (Qs.parse rs))).

(** The parts [send] transmits for a message record. *)
Definition send_parts (self : Client.t) (obj : Obj.t mval)
  : list (string * string) :=
  text_parts (Qs.stringify stringifyPrimitive
                (build_reqString self (setDefaults obj))).

(** The four lines of one text part as they stand in the array [a]. *)
Definition part_lines (b : string) (kv : string * string) : list string :=
  [content_disposition (fst kv); ""; snd kv; b].

(** A text part as multipart/form-data frames it: boundary line, header
    line, blank line, value, each ended by CRLF. *)
Definition text_part (b : string) (kv : string * string) : string :=
  b ++ CRLF ++ content_disposition (fst kv) ++ CRLF ++ CRLF ++ snd kv ++ CRLF.

Definition content_type (ty : option string) : string :=
  match ty with
  | Some t => t
  | None => "application/octet-stream"
  end.

(** The head of the attachment part: boundary line, the two header lines
    and the blank line. *)
Definition attachment_head (b name : string) (ty : option string) : string :=
  b ++ CRLF ++ attachment_disposition name ++ CRLF
    ++ "Content-Type: " ++ content_type ty ++ CRLF ++ CRLF.

(** The closing delimiter as the attachment path writes it. *)
Definition closing (b : string) : string := CRLF ++ b ++ "--" ++ CRLF.

(** Everything in front of the attachment bytes. *)
Definition framing (b : string) (parts : list (string * string))
           (name : string) (ty : option string) : string :=
  String.concat "" (map (text_part b) parts) ++ attachment_head b name ty.

(** A body with an attachment, part by part. *)
Definition multipart_with (b : string) (parts : list (string * string))
           (img : ImgObj.t) : Buffer :=
  (Buffer_from_utf8 (framing b parts (ImgObj.name img) (ImgObj.type img))
     ++ ImgObj.data img ++ Buffer_from_utf8 (closing b))%list.

(** A body without attachment as the encoder writes it: the text parts,
    the last value running into the closing marker. *)
Definition multipart_without (b : string) (parts : list (string * string))
  : Buffer :=
  Buffer_from_utf8
    (match parts with
     | [] => b ++ "--" ++ CRLF
     | _ => String.concat "" (map (text_part b) (removelast parts))
            ++ b ++ CRLF ++ content_disposition (fst (last parts ("", "")))
            ++ CRLF ++ CRLF ++ snd (last parts ("", ""))
            ++ b ++ "--" ++ CRLF
     end).

(** What is left of a body once [skip] leading and [trail] trailing bytes
    are taken away. *)
Definition extract (skip trail : nat) (body : Buffer) : Buffer :=
  firstn (List.length body - skip - trail) (skipn skip body).

(** ** The parts in the spec's words

    Following the spec's words, to be compared with what the encoder
    writes: a text part is a line with the boundary marker, the header line
    [Content-Disposition: form-data; name="<key>"], a blank line and the
    literal value, each ended by CRLF. *)
Definition spec_text_part (b : string) (kv : string * string) : string :=
  b ++ CRLF
    ++ "Content-Disposition: form-data; name=" ++ DQUOTE ++ fst kv ++ DQUOTE
    ++ CRLF ++ CRLF ++ snd kv ++ CRLF.

(** Following the spec's words: the attachment part opens with the
    boundary marker, the header line
    [Content-Disposition: form-data; name="attachment"; filename="<name>"],
    a [Content-Type] header line and a blank line; the raw bytes follow. *)
Definition spec_attachment_head (b name ty : string) : string :=
  b ++ CRLF
    ++ "Content-Disposition: form-data; name=" ++ DQUOTE ++ "attachment"
    ++ DQUOTE ++ "; filename=" ++ DQUOTE ++ name ++ DQUOTE ++ CRLF
    ++ "Content-Type: " ++ ty ++ CRLF ++ CRLF.

(** The value [mp] of [send]: the payload it computes for a message, or
    the exception of the attachment load. *)
Definition encoded_body `{Platform} (self : Client.t) (obj : Obj.t mval)
  : M Buffer :=
  build_payload (request_string self obj) (Client.boundary self)
                (mget (setDefaults obj) "file").

(** Whether the strings of a list differ from one another. *)
Fixpoint distinct (l : list string) : bool :=
  match l with
  | [] => true
  | x :: r => negb (existsb (String.eqb x) r) && distinct r
  end.

(** ** Views for the further properties *)

(** The calls other than those of the completion handler. *)
Definition other_calls (l : list call) : list call :=
  filter (fun c => match c with Fn _ _ _ => false | _ => true end) l.

(** The calls of [onerror]. *)
Definition onerror_calls (l : list call) : list call :=
  filter (fun c => match c with Onerror _ _ => true | _ => false end) l.

(** The entries of a request map that have a string form, as (name, value)
    pairs in enumeration order. *)
Definition map_parts (m : Obj.t mval) : list (string * string) :=
  map (fun kv => (fst kv, stringifyPrimitive (snd kv)))
      (filter (fun kv => negb (is_empty (stringifyPrimitive (snd kv))))
              (Obj.for_in m)).

(** Two clients that differ at most in their sound table. *)
Definition same_settings (a b : Client.t) : Prop :=
  Client.boundary a = Client.boundary b
  /\ Client.token a = Client.token b
  /\ Client.user a = Client.user b
  /\ Client.httpOptions a = Client.httpOptions b
  /\ Client.debug a = Client.debug b
  /\ Client.onerror a = Client.onerror b.

(** [null] or [undefined]. *)
Definition nullish (v : jsval) : bool :=
  match v with
  | JUndefined | JNull => true
  | _ => false
  end.

(** The value [errors] reads the member [errors] of: the parsed text when
    [d] is a string that parses, [d] itself otherwise. *)
Definition parsed `{Platform} (d : jsval) : jsval :=
  match d with
  | JStr s => match JSON_parse s with
              | Some v => v
              | None => d
              end
  | _ => d
  end.

(** The order of the array-index properties in an enumeration. *)
Definition by_index {V} (x y : N * (string * V)) : Prop := (fst x <= fst y)%N.

(** A property paired with the array index its key denotes. *)
Definition tagged {V} (x : N * (string * V)) : Prop :=
  Obj.array_index (fst (snd x)) = Some (fst x).

(** The keys of [def] that a record does not have yet. *)
Definition missing_defaults (o : Obj.t mval) : list string :=
  filter (fun k => negb (existsb (String.eqb k) (Obj.keys o))) def.

(** ** A reference platform for the examples

    A parser for the fragment of JSON without escapes beyond the simple
    ones, without fractions and exponents; a two-file file system; a parser
    for URLs of the form [scheme://host[:port][/path]].  On its fragment
    each function returns what Node returns. *)

Module Fragment.

Definition is_ws (c : ascii) : bool :=
  let n := nat_of_ascii c in
  ((n =? 32) || (n =? 9) || (n =? 10) || (n =? 13))%nat.

Fixpoint skip_ws (s : string) : string :=
  match s with
  | String c r => if is_ws c then skip_ws r else s
  | EmptyString => s
  end.

Definition expect (lit : string) (s : string) (v : jsval)
  : option (jsval * string) :=
  if String.prefix lit s
  then Some (v, substring_from (String.length lit) s)
  else None.

(** The characters of a string literal after the opening quote. *)
Fixpoint string_body (s : string) : option (string * string) :=
  match s with
  | EmptyString => None
  | String c r =>
      let n := nat_of_ascii c in
      if (n =? 34)%nat then Some (EmptyString, r)
      else if (n <? 32)%nat then None
      else if (n =? 92)%nat then
        match r with
        | String e r' =>
            let m := nat_of_ascii e in
            let plain (d : ascii) :=
              match string_body r' with
              | Some (t, rest) => Some (String d t, rest)
              | None => None
              end in
            if ((m =? 34) || (m =? 92) || (m =? 47))%nat then plain e
            else if (m =? 110)%nat then plain (ascii_of_nat 10)
            else if (m =? 116)%nat then plain (ascii_of_nat 9)
            else if (m =? 114)%nat then plain (ascii_of_nat 13)
            else if (m =? 98)%nat then plain (ascii_of_nat 8)
            else if (m =? 102)%nat then plain (ascii_of_nat 12)
            else None
        | EmptyString => None
        end
      else match string_body r with
           | Some (t, rest) => Some (String c t, rest)
           | None => None
           end
  end.

Fixpoint digits (s : string) (acc : N) : N * string :=
  match s with
  | String c r =>
      if Obj.is_digit c then digits r (10 * acc + (N_of_ascii c - 48))%N
      else (acc, s)
  | EmptyString => (acc, s)
  end.

(** An integer literal below 2^53, which a double holds exactly. *)
Definition number (neg : bool) (s : string) : option (jsval * string) :=
  match s with
  | String c r =>
      if Obj.is_digit c then
        let (n, rest) := if Ascii.eqb c "0" then (0%N, r) else digits s 0 in
        match rest with
        | String d _ =>
            if Ascii.eqb d "." || Ascii.eqb d "e" || Ascii.eqb d "E"
               || Obj.is_digit d
            then None
            else match n with
                 | N0 => Some (JNum (S754_zero neg), rest)
                 | Npos p => if (n <? 9007199254740992)%N
                             then Some (JNum (S754_finite neg p Z0), rest)
                             else None
                 end
        | EmptyString =>
            match n with
            | N0 => Some (JNum (S754_zero neg), rest)
            | Npos p => if (n <? 9007199254740992)%N
                        then Some (JNum (S754_finite neg p Z0), rest)
                        else None
            end
        end
      else None
  | EmptyString => None
  end.

Fixpoint value (fuel : nat) (s : string) {struct fuel}
  : option (jsval * string) :=
  match fuel with
  | O => None
  | S f =>
      match skip_ws s with
      | EmptyString => None
      | String c r =>
          let n := nat_of_ascii c in
          if (n =? 110)%nat then expect "ull" r JNull
          else if (n =? 116)%nat then expect "rue" r (JBool true)
          else if (n =? 102)%nat then expect "alse" r (JBool false)
          else if (n =? 34)%nat then
            match string_body r with
            | Some (t, rest) => Some (JStr t, rest)
            | None => None
            end
          else if (n =? 91)%nat then
            match skip_ws r with
            | String d r' =>
                if (nat_of_ascii d =? 93)%nat then Some (JArr [], r')
                else elements f r []
            | EmptyString => None
            end
          else if (n =? 123)%nat then
            match skip_ws r with
            | String d r' =>
                if (nat_of_ascii d =? 125)%nat then Some (JObj [], r')
                else members f r []
            | EmptyString => None
            end
          else if (n =? 45)%nat then number true r
          else number false (String c r)
      end
  end
with elements (fuel : nat) (s : string) (acc : list jsval) {struct fuel}
  : option (jsval * string) :=
  match fuel with
  | O => None
  | S f =>
      match value f s with
      | Some (v, r) =>
          match skip_ws r with
          | String d r' =>
              if (nat_of_ascii d =? 44)%nat then elements f r' (acc ++ [v])%list
              else if (nat_of_ascii d =? 93)%nat
                   then Some (JArr (acc ++ [v])%list, r')
                   else None
          | EmptyString => None
          end
      | None => None
      end
  end
with members (fuel : nat) (s : string) (acc : list (string * jsval))
     {struct fuel} : option (jsval * string) :=
  match fuel with
  | O => None
  | S f =>
      match skip_ws s with
      | String q r =>
          if (nat_of_ascii q =? 34)%nat then
            match string_body r with
            | Some (k, r1) =>
                match skip_ws r1 with
                | String col r2 =>
                    if (nat_of_ascii col =? 58)%nat then
                      match value f r2 with
                      | Some (v, r3) =>
                          match skip_ws r3 with
                          | String d r' =>
                              if (nat_of_ascii d =? 44)%nat
                              then members f r' (Obj.set acc k v)
                              else if (nat_of_ascii d =? 125)%nat
                                   then Some (JObj (Obj.set acc k v), r')
                                   else None
                          | EmptyString => None
                          end
                      | None => None
                      end
                    else None
                | EmptyString => None
                end
            | None => None
            end
          else None
      | EmptyString => None
      end
  end.

Definition JSON_parse (s : string) : option jsval :=
  match value (2 * String.length s + 2) s with
  | Some (v, rest) => if is_empty (skip_ws rest) then Some v else None
  | None => None
  end.

Definition files : list (string * Buffer) :=
  [("/tmp/pic.png", [x89; x50]%byte); ("cat.jpg", [xff; xd8; xff]%byte)].

Definition readFileSync (p : string) : option Buffer := Obj.get files p.

(** [scheme://host[:port][/path]] *)
Fixpoint until (c : ascii) (s : string) : string * option string :=
  match s with
  | EmptyString => (EmptyString, None)
  | String d r =>
      if Ascii.eqb d c then (EmptyString, Some r)
      else let (h, t) := until c r in (String d h, t)
  end.

Definition url_parse (u : string) : Obj.t oval :=
  match until ":" u with
  | (scheme, Some rest) =>
      if String.prefix "//" rest then
        let (host, p) := until "/" (substring_from 2 rest) in
        let path := match p with
                    | Some t => String "/" t
                    | None => "/"
                    end in
        let (hostname, port) := until ":" host in
        [("protocol", OStr (scheme ++ ":")); ("slashes", OBool true);
         ("auth", ONull); ("host", OStr host);
         ("port", match port with Some n => OStr n | None => ONull end);
         ("hostname", OStr hostname); ("hash", ONull); ("search", ONull);
         ("query", ONull); ("pathname", OStr path); ("path", OStr path);
         ("href", OStr (scheme ++ "://" ++ host ++ path))]
      else []
  | (_, None) => []
  end.

Definition node : Platform :=
  Build_Platform JSON_parse readFileSync url_parse.

End Fragment.

(** ** Sample inputs *)

Definition bare_client : Client.t :=
  Pushover (Opts.mk "T" "U" None false false false) "0.4fzyo82mvyr".

Definition handled_client : Client.t :=
  Pushover (Opts.mk "T" "U" None false true false) "0.4fzyo82mvyr".

Definition invalid_token_body : string :=
  "{" ++ quoted "status" ++ ":0," ++ quoted "errors" ++ ":["
      ++ quoted "application token is invalid" ++ "]}".

Definition sounds_body : string :=
  "{" ++ quoted "status" ++ ":1," ++ quoted "sounds" ++ ":{"
      ++ quoted "bell" ++ ":" ++ quoted "Bell" ++ "}}".

Definition r200 : response := {| statusCode := 200 |}.
Definition r400 : response := {| statusCode := 400 |}.

Definition econnrefused : jsval := JObj [("code", JStr "ECONNREFUSED")].

Definition status_only_body : string := "{" ++ quoted "status" ++ ":1}".

Definition hello : Obj.t mval :=
  [("message", MStr "hello"); ("title", MStr ""); ("sound", MStr "bike");
   ("token", MStr "T2"); ("file", MStr "/tmp/pic.png")].

Definition lost : Obj.t mval :=
  [("message", MStr "hello"); ("file", MStr "/nowhere.png")].

Definition client_T : Client.t :=
  Pushover (Opts.mk "T" "U" None false false false) "0.abc".

Definition client_GET : Client.t :=
  Pushover (Opts.mk "T" "U" (Some [("method", OStr "GET")]) false false false)
           "0.abc".

(** A message without attachment. *)
Definition plain : Obj.t mval :=
  [("message", MStr "hello"); ("title", MStr ""); ("sound", MStr "bike")].

(** A message that names its token and leaves it undefined. *)
Definition no_token : Obj.t mval :=
  [("message", MStr "hi"); ("token", MUndef)].

(** A message with the 999 further fields [k0], ..., [k998]: with the two
    credentials its request map has 1001 entries. *)
Definition many_fields : Obj.t mval :=
  map (fun n => ("k" ++ NilEmpty.string_of_uint (Nat.to_uint n), MStr "v"))
      (seq 0 999).

Definition client_proxy : Client.t :=
  Pushover (Opts.mk "T" "U"
                    (Some [("proxy", OStr "http://proxy.local:8080");
                           ("timeout", ONum 1000)])
                    false false false)
           "0.abc".

(** * Verification *)

(** ** The model on concrete inputs *)

Example escape_reserved : Qs.escape "a b&c=d+e" = "a%20b%26c%3Dd%2Be".
Proof. reflexivity. Qed.

Example parse_query :
  Qs.parse "token=T&user=U&message=hello%20world&&x&y=&y=2&10=b&9=a"
  = [("token", Qs.QStr "T"); ("user", Qs.QStr "U");
     ("message", Qs.QStr "hello world"); ("x", Qs.QStr "");
     ("y", Qs.QArr [""; "2"]); ("10", Qs.QStr "b"); ("9", Qs.QStr "a")].
Proof. reflexivity. Qed.

Example for_in_order :
  Obj.keys (Obj.for_in (Qs.parse "b=1&10=x&a=2&9=y&007=z"))
  = ["9"; "10"; "b"; "a"; "007"].
Proof. reflexivity. Qed.

Example basename_file : Path.basename "/tmp/pic.png" = "pic.png".
Proof. reflexivity. Qed.

Example basename_trailing : Path.basename "/tmp/dir//" = "dir".
Proof. reflexivity. Qed.

Example setDefaults_hello :
  setDefaults [("message", MStr "hello"); ("sound", MStr "bike")]
  = [("message", MStr "hello"); ("sound", MStr "bike"); ("device", MStr "");
     ("title", MStr ""); ("url", MStr ""); ("url_title", MStr "");
     ("priority", MStr ""); ("timestamp", MStr "")].
Proof. reflexivity. Qed.

Example parts_of_hello :
  send_parts client_T [("message", MStr "hello")]
  = [("token", "T"); ("user", "U"); ("message", "hello")].
Proof. reflexivity. Qed.

Example body_with_attachment :
  string_of_list_byte
    (reqString2MP "message=img" "--abc"
                  (Some (ImgObj.mk "a.png" [x41; x42]%byte None)))
  = "--abc" ++ CRLF ++ content_disposition "message" ++ CRLF ++ CRLF
    ++ "img" ++ CRLF ++ "--abc" ++ CRLF ++ attachment_disposition "a.png"
    ++ CRLF ++ "Content-Type: application/octet-stream" ++ CRLF ++ CRLF
    ++ "AB" ++ CRLF ++ "--abc--" ++ CRLF.
Proof. reflexivity. Qed.

Example parse_error_list :
  Fragment.JSON_parse invalid_token_body
  = Some (JObj [("status", JNum (S754_zero false));
                ("errors", JArr [JStr "application token is invalid"])]).
Proof. reflexivity. Qed.

Example parse_refresh_message :
  Fragment.JSON_parse "Pushover: parsing sound data failed" = None.
Proof. reflexivity. Qed.

Example success_path_calls_once :
  send_events (H := Fragment.node) handled_client true
              [Response r200; Data "{}"; End]
  = [Fn JUndefined (Some "{}") (Some r200)].
Proof. reflexivity. Qed.

(** ** Strings, joins and buffers *)

Lemma append_nil_r (s : string) : s ++ "" = s.
Proof. induction s as [|c s IH]; simpl; [reflexivity | now rewrite IH]. Qed.

Lemma append_assoc (s t u : string) : (s ++ t) ++ u = s ++ (t ++ u).
Proof. induction s as [|c s IH]; simpl; [reflexivity | now rewrite IH]. Qed.

Lemma length_append (s t : string) :
  String.length (s ++ t) = String.length s + String.length t.
Proof. induction s as [|c s IH]; simpl; [reflexivity | now rewrite IH]. Qed.

Lemma utf8_app (s t : string) :
  Buffer_from_utf8 (s ++ t) = (Buffer_from_utf8 s ++ Buffer_from_utf8 t)%list.
Proof.
  unfold Buffer_from_utf8, list_byte_of_string.
  induction s as [|c s IH]; simpl; [reflexivity | now rewrite IH].
Qed.

Lemma utf8_length (s : string) :
  List.length (Buffer_from_utf8 s) = String.length s.
Proof.
  unfold Buffer_from_utf8, list_byte_of_string.
  induction s as [|c s IH]; simpl; [reflexivity | now rewrite IH].
Qed.

Lemma join_cons (sep x y : string) (l : list string) :
  join sep (x :: y :: l) = x ++ sep ++ join sep (y :: l).
Proof. reflexivity. Qed.

(** Joining the array [a] of the encoder: every group of four lines that
    follows a boundary line is one framed text part. *)
Lemma join_part_lines (b : string) (ps : list (string * string))
      (tail : list string) :
  join CRLF (b :: flat_map (part_lines b) ps ++ tail)%list
  = String.concat "" (map (text_part b) ps) ++ join CRLF (b :: tail).
Proof.
  induction ps as [|[k v] ps IH].
  - simpl. destruct tail; reflexivity.
  - cbn [flat_map part_lines app fst snd map].
    rewrite !join_cons. rewrite IH.
    replace (String.concat "" (text_part b (k, v) :: map (text_part b) ps))
      with (text_part b (k, v) ++ String.concat "" (map (text_part b) ps)).
    + unfold text_part. cbn [fst snd]. rewrite !append_assoc. reflexivity.
    + destruct (map (text_part b) ps) eqn:E; simpl.
      * now rewrite append_nil_r.
      * reflexivity.
Qed.

Lemma push_fields_lines (b : string) (o : Obj.t Qs.value) (a : list string) :
  push_fields b o a
  = (a ++ flat_map (part_lines b)
            (map (fun pv => (fst pv, Qs.to_string (snd pv)))
                 (filter (fun pv => Qs.not_empty_string (snd pv))
                         (Obj.for_in o))))%list.
Proof.
  unfold push_fields. generalize (Obj.for_in o) as l. intro l. revert a.
  induction l as [|[p v] l IH]; intro a; simpl.
  - now rewrite app_nil_r.
  - destruct (Qs.not_empty_string v); simpl.
    + rewrite IH. rewrite <- app_assoc. reflexivity.
    + apply IH.
Qed.

(** ** The encoder, part by part *)

Theorem reqString2MP_with (rs b : string) (img : ImgObj.t) :
  reqString2MP rs b (Some img) = multipart_with b (text_parts rs) img.
Proof.
  unfold reqString2MP, multipart_with, framing, Buffer_concat, Buffer_from_binary.
  rewrite push_fields_lines. fold (text_parts rs).
  cbn [List.concat]. rewrite app_nil_r. f_equal.
  change ([b] ++ flat_map (part_lines b) (text_parts rs))%list
    with (b :: flat_map (part_lines b) (text_parts rs)).
  rewrite <- app_comm_cons, join_part_lines.
  f_equal. unfold attachment_head, content_type.
  destruct (ImgObj.type img); cbn; rewrite ?append_assoc; reflexivity.
Qed.

Lemma removelast_lines (b : string) (ps : list (string * string))
      (kv : string * string) :
  removelast (b :: flat_map (part_lines b) (ps ++ [kv]))
  = (b :: flat_map (part_lines b) ps
       ++ [content_disposition (fst kv); ""; snd kv])%list.
Proof.
  rewrite flat_map_app. cbn [flat_map part_lines app].
  rewrite app_comm_cons.
  replace ([content_disposition (fst kv); ""; snd kv; b])
    with ([content_disposition (fst kv); ""; snd kv] ++ [b])%list by reflexivity.
  rewrite app_assoc. rewrite removelast_last. reflexivity.
Qed.

Theorem reqString2MP_without (rs b : string) :
  reqString2MP rs b None = multipart_without b (text_parts rs).
Proof.
  unfold reqString2MP, multipart_without, Buffer_concat, splice_last.
  rewrite push_fields_lines. fold (text_parts rs).
  cbn [List.concat]. rewrite app_nil_r, <- utf8_app. f_equal.
  change ([b] ++ flat_map (part_lines b) (text_parts rs))%list
    with (b :: flat_map (part_lines b) (text_parts rs)).
  generalize (text_parts rs) as parts. intro parts.
  destruct parts as [|x l _] using rev_ind.
  - reflexivity.
  - rewrite removelast_lines, join_part_lines.
    rewrite removelast_last, last_last.
    destruct (l ++ [x])%list eqn:E'; [now destruct l|].
    rewrite !join_cons. cbn [join String.concat].
    rewrite !append_assoc. reflexivity.
Qed.

(** ** The closing delimiter (C1, C4) and the attachment bytes (C8) *)

(** C1.  The claim asks that the body end with CRLF, the boundary marker and
    [--], and that every line of a text part, the value included, be ended
    by CRLF, also when no attachment is given.  With an attachment the
    encoder does write CRLF, boundary, [--], CRLF after the data, for every
    input.  Without one it does not: for the request string [message=hello]
    and the boundary [--abc] the value [hello] is followed at once by
    [--abc--], so neither the value nor the closing marker has its CRLF;
    the body [send] builds for the message [{message: 'hello'}] ends in the
    same way. *)
Theorem C1_last_value_runs_into_closing_marker :
  reqString2MP "message=hello" "--abc" None
  = Buffer_from_utf8 ("--abc" ++ CRLF ++ content_disposition "message" ++ CRLF
                      ++ CRLF ++ "hello" ++ "--abc" ++ "--" ++ CRLF)
  /\ suffix (CRLF ++ "--abc" ++ "--" ++ CRLF)
            (string_of_list_byte (reqString2MP "message=hello" "--abc" None))
     = false
  /\ suffix (CRLF ++ "--abc" ++ "--")
            (string_of_list_byte (reqString2MP "message=hello" "--abc" None))
     = false
  /\ (exists req,
        result (send (H := Fragment.node) client_T [("message", MStr "hello")])
        = Ret req
        /\ string_of_list_byte (payload req)
           = "--abc" ++ CRLF ++ content_disposition "token" ++ CRLF ++ CRLF
             ++ "T" ++ CRLF
             ++ "--abc" ++ CRLF ++ content_disposition "user" ++ CRLF ++ CRLF
             ++ "U" ++ CRLF
             ++ "--abc" ++ CRLF ++ content_disposition "message" ++ CRLF
             ++ CRLF ++ "hello" ++ "--abc" ++ "--" ++ CRLF)
  /\ (forall rs b img, exists head,
         reqString2MP rs b (Some img)
         = (head ++ Buffer_from_utf8 (CRLF ++ b ++ "--" ++ CRLF))%list).
Proof.
  split; [reflexivity|]. split; [reflexivity|]. split; [reflexivity|].
  split.
  - eexists. split; vm_compute; reflexivity.
  - intros rs b img. rewrite reqString2MP_with. unfold multipart_with.
    eexists. rewrite app_assoc. reflexivity.
Qed.

(** C4, as stated, fails: with no pair to emit and no attachment the body
    does not begin with a boundary line. *)
Lemma C4_no_opening_boundary_line :
  text_parts "title=&sound=" = []
  /\ ~ (exists rest,
          reqString2MP "title=&sound=" "--abc" None
          = (Buffer_from_utf8 ("--abc" ++ CRLF) ++ rest)%list).
Proof.
  split; [reflexivity|]. intros [rest E]. vm_compute in E. discriminate E.
Qed.

(** C4, amended.  With no pair to emit and no attachment the body is the
    closing marker alone: the boundary marker, [--] and CRLF. *)
Theorem C4_degenerate_body (rs b : string) :
  text_parts rs = [] ->
  reqString2MP rs b None = Buffer_from_utf8 (b ++ "--" ++ CRLF).
Proof.
  intro E. rewrite reqString2MP_without, E. reflexivity.
Qed.

Lemma C4_degenerate_body_witness :
  text_parts "title=&sound=" = []
  /\ reqString2MP "title=&sound=" "--abc" None
     = Buffer_from_utf8 ("--abc" ++ "--" ++ CRLF).
Proof.
  split; [reflexivity | apply (C4_degenerate_body "title=&sound=" "--abc")].
  reflexivity.
Defined.

Lemma extract_middle {A} (h d t : list A) :
  firstn (List.length (h ++ d ++ t) - List.length h - List.length t)
         (skipn (List.length h) (h ++ d ++ t)) = d.
Proof.
  rewrite skipn_app, skipn_all, Nat.sub_diag. cbn [skipn app].
  rewrite !length_app.
  replace (List.length h + (List.length d + List.length t)
           - List.length h - List.length t) with (List.length d + 0) by lia.
  rewrite firstn_app_2. cbn [firstn]. apply app_nil_r.
Qed.

(** C8.  The attachment bytes stand in the body as they are: the body is
    the text framing (which depends on the fields, the boundary, the name
    and the type only), then the data, then the closing delimiter; its
    length is the sum of the three lengths; cutting the framing and the
    closing delimiter off gives the data back. *)
Theorem C8_attachment_bytes_verbatim (rs b : string) (img : ImgObj.t) :
  let head := framing b (text_parts rs) (ImgObj.name img) (ImgObj.type img) in
  let body := reqString2MP rs b (Some img) in
  body = (Buffer_from_utf8 head ++ ImgObj.data img
            ++ Buffer_from_utf8 (closing b))%list
  /\ List.length body
     = String.length head + List.length (ImgObj.data img)
       + String.length (closing b)
  /\ extract (String.length head) (String.length (closing b)) body
     = ImgObj.data img.
Proof.
  intros head body. subst body. rewrite reqString2MP_with.
  unfold multipart_with. fold head. split; [reflexivity | split].
  - rewrite !length_app, !utf8_length. lia.
  - unfold extract. rewrite <- (utf8_length head), <- (utf8_length (closing b)).
    apply extract_middle.
Qed.

(** ** The error path (C10) *)

Section ErrorPath.
Context `{Platform}.

(** [errors] calls no completion handler. *)
Lemma errors_no_fn (self : Client.t) (d : jsval) (res : option response) :
  fn_calls (calls (errors self d res)) = [].
Proof.
  unfold errors, call_onerror.
  destruct d as [| |b|x|s|l|props]; cbn;
    try reflexivity;
    repeat match goal with
           | |- context [JSON_parse ?s] => destruct (JSON_parse s) as [[]|]; cbn
           | |- context [Client.onerror ?c] => destruct (Client.onerror c); cbn
           | |- context [Obj.get ?p ?k] => destruct (Obj.get p k) as [[]|]; cbn
           | |- context [truthy ?v] => destruct (truthy v); cbn
           | |- context [nth ?n ?l ?d] => destruct (nth n l d); cbn
           | |- context [String.get ?n ?s] => destruct (String.get n s); cbn
           | |- context [match ?x with S754_zero _ => _ | _ => _ end] =>
               destruct x; cbn
           | |- context [is_empty ?s] => destruct (is_empty s); cbn
           | |- context [if ?b then _ else _] => destruct b; cbn
           end; try reflexivity.
Qed.

(** C10.  When the response text is not JSON, [errors] calls
    [this.onerror] without looking whether it is set: a client without
    handler throws the TypeError of calling [undefined], and the parse
    error is reported only when a handler is configured.  The guard
    exists on the other branch only: a parsed response with a truthy
    [errors] member is reported to the handler if there is one and is
    thrown as [new Error(d.errors[0])] if there is none. *)
Theorem C10_parse_failure_calls_unguarded_handler
        (self : Client.t) (s : string) (res : option response) :
  (JSON_parse s = None ->
   errors self (JStr s) res
   = if Client.onerror self
     then ([Onerror (EThrown (SyntaxError s)) res], Ret tt)
     else ([], Throw (TypeError "this.onerror is not a function")))
  /\ (forall d e e0,
         JSON_parse s = Some d ->
         get_member d "errors" = ret e -> truthy e = true ->
         get_member e "0" = ret e0 ->
         errors self (JStr s) res
         = if Client.onerror self
           then ([Onerror (EVal e0) res], Ret tt)
           else ([], Throw (ErrorOf e0))).
Proof.
  split.
  - intro E. unfold errors, call_onerror. rewrite E.
    destruct (Client.onerror self); reflexivity.
  - intros d e e0 E Ee T E0. unfold errors. rewrite E. cbn.
    rewrite Ee. cbn. rewrite T. rewrite E0. cbn.
    destruct (Client.onerror self); reflexivity.
Qed.

End ErrorPath.

Lemma C10_parse_failure_calls_unguarded_handler_witness :
  errors (H := Fragment.node) bare_client (JStr "<html>502</html>") None
  = ([], Throw (TypeError "this.onerror is not a function"))
  /\ errors (H := Fragment.node) handled_client (JStr "<html>502</html>") None
     = ([Onerror (EThrown (SyntaxError "<html>502</html>")) None], Ret tt)
  /\ errors (H := Fragment.node) bare_client (JStr invalid_token_body) None
     = ([], Throw (ErrorOf (JStr "application token is invalid"))).
Proof.
  split; [|split].
  - apply (proj1 (C10_parse_failure_calls_unguarded_handler
                    (H := Fragment.node) bare_client "<html>502</html>" None)).
    reflexivity.
  - apply (proj1 (C10_parse_failure_calls_unguarded_handler
                    (H := Fragment.node) handled_client "<html>502</html>" None)).
    reflexivity.
  - apply (proj2 (C10_parse_failure_calls_unguarded_handler
                    (H := Fragment.node) bare_client invalid_token_body None)
                 (JObj [("status", JNum (S754_zero false));
                        ("errors", JArr [JStr "application token is invalid"])])
                 (JArr [JStr "application token is invalid"])
                 (JStr "application token is invalid")); reflexivity.
Defined.

(** ** The sound-table refresh (C6) *)

Section Refresh.
Context `{Platform}.

(** [errors] on a value that is no string and has no truthy [errors]
    member: nothing is called and nothing is thrown. *)
Lemma errors_silent (self : Client.t) (props : list (string * jsval))
      (res : option response) :
  truthy (match Obj.get props "errors" with
          | Some x => x
          | None => JUndefined
          end) = false ->
  errors self (JObj props) res = ([], Ret tt).
Proof.
  intro T. unfold errors. cbn [bind ret get_member app]. rewrite T. reflexivity.
Qed.

(** C6.  What the two failure listeners and the [end] listener of
    [updateSounds] do, call by call.

    - A transport failure hands the error object to [errors], which looks
      for an [errors] member only: for an object without one no handler is
      called and nothing is thrown; the client stays as it is.
    - A response that is not JSON hands the text
      [Pushover: parsing sound data failed] to [errors], which parses it:
      a configured handler receives the syntax error of that text, and
      without a handler the TypeError of calling [undefined] leaves the
      listener; the client stays as it is.
    - A response that parses and carries an error list is reported to a
      configured handler, after which the table is set to the [sounds]
      member of the response all the same.
    - A response that parses and carries no error list replaces the table
      by its [sounds] member, whatever the table held. *)
Theorem C6_failed_refresh_goes_unreported
        (self : Client.t) (data : string) (res : response) :
  (forall props r,
      truthy (match Obj.get props "errors" with
              | Some x => x
              | None => JUndefined
              end) = false ->
      updateSounds_error self (JObj props) = ([], Ret self)
      /\ deliver updateSounds_step (self, r) [Error (JObj props)]
         = ([], (self, r)))
  /\ (JSON_parse data = None ->
      JSON_parse "Pushover: parsing sound data failed" = None ->
      updateSounds_end self data (Some res)
      = (if Client.onerror self
         then ([Onerror (EThrown (SyntaxError
                                    "Pushover: parsing sound data failed"))
                        (Some res)],
               Ret self)
         else ([], Throw (TypeError "this.onerror is not a function")))
      /\ fst (snd (deliver updateSounds_step
                           (self, {| r_data := data; r_res := Some res |})
                           [End])) = self)
  /\ (forall j e e0 s,
         JSON_parse data = Some j ->
         get_member j "errors" = ret e -> truthy e = true ->
         get_member e "0" = ret e0 ->
         get_member j "sounds" = ret s ->
         Client.onerror self = true ->
         updateSounds_end self data (Some res)
         = ([Onerror (EVal e0) (Some res)], Ret (Client.with_sounds self s)))
  /\ (forall j e s,
         JSON_parse data = Some j ->
         get_member j "errors" = ret e -> truthy e = false ->
         get_member j "sounds" = ret s ->
         updateSounds_end self data (Some res)
         = ([], Ret (Client.with_sounds self s))
         /\ Client.sounds (Client.with_sounds self s) = s).
Proof.
  split; [|split; [|split]].
  - intros props r T.
    assert (U : updateSounds_error self (JObj props) = ([], Ret self)).
    { unfold updateSounds_error. now rewrite (errors_silent self props None T). }
    split; [exact U|].
    cbn [deliver]. unfold updateSounds_step. destruct (r_res r); now rewrite U.
  - intros E Em.
    assert (U : updateSounds_end self data (Some res)
                = (if Client.onerror self
                   then ([Onerror (EThrown (SyntaxError
                                              "Pushover: parsing sound data failed"))
                                  (Some res)],
                         Ret self)
                   else ([], Throw (TypeError "this.onerror is not a function")))).
    { unfold updateSounds_end. rewrite E. unfold errors, call_onerror.
      rewrite Em. destruct (Client.onerror self); reflexivity. }
    split; [exact U|].
    cbn [deliver updateSounds_step r_res r_data]. rewrite U.
    destruct (Client.onerror self); reflexivity.
  - intros j e e0 s E Ee T E0 Es O.
    unfold updateSounds_end, errors. rewrite E. cbn [bind ret app].
    rewrite Ee. cbn [bind ret app]. rewrite T, E0. cbn [bind ret app].
    rewrite O. cbn [bind emit ret app]. rewrite Es. reflexivity.
  - intros j e s E Ee T Es. split; [|reflexivity].
    unfold updateSounds_end, errors. rewrite E. cbn [bind ret app].
    rewrite Ee. cbn [bind ret app]. rewrite T. cbn [bind ret app].
    rewrite Es. reflexivity.
Qed.

End Refresh.

Lemma C6_failed_refresh_goes_unreported_witness :
  updateSounds_error (H := Fragment.node) handled_client econnrefused
  = ([], Ret handled_client)
  /\ updateSounds_end (H := Fragment.node) handled_client "<html>502</html>"
                      (Some r200)
     = ([Onerror (EThrown (SyntaxError "Pushover: parsing sound data failed"))
                 (Some r200)],
        Ret handled_client)
  /\ updateSounds_end (H := Fragment.node) bare_client "<html>502</html>"
                      (Some r200)
     = ([], Throw (TypeError "this.onerror is not a function"))
  /\ updateSounds_end (H := Fragment.node) handled_client invalid_token_body
                      (Some r400)
     = ([Onerror (EVal (JStr "application token is invalid")) (Some r400)],
        Ret (Client.with_sounds handled_client JUndefined))
  /\ updateSounds_end (H := Fragment.node) bare_client sounds_body (Some r200)
     = ([], Ret (Client.with_sounds bare_client
                                    (JObj [("bell", JStr "Bell")]))).
Proof.
  split; [|split; [|split; [|split]]].
  - apply (proj1 (proj1 (C6_failed_refresh_goes_unreported
                           (H := Fragment.node) handled_client "" r200)
                        [("code", JStr "ECONNREFUSED")]
                        {| r_data := ""; r_res := None |} eq_refl)).
  - apply (proj1 (proj1 (proj2 (C6_failed_refresh_goes_unreported
                                  (H := Fragment.node) handled_client
                                  "<html>502</html>" r200))
                        eq_refl eq_refl)).
  - apply (proj1 (proj1 (proj2 (C6_failed_refresh_goes_unreported
                                  (H := Fragment.node) bare_client
                                  "<html>502</html>" r200))
                        eq_refl eq_refl)).
  - apply (proj1 (proj2 (proj2 (C6_failed_refresh_goes_unreported
                                  (H := Fragment.node) handled_client
                                  invalid_token_body r400)))
                 (JObj [("status", JNum (S754_zero false));
                        ("errors", JArr [JStr "application token is invalid"])])
                 (JArr [JStr "application token is invalid"])
                 (JStr "application token is invalid") JUndefined);
      reflexivity.
  - apply (proj1 (proj2 (proj2 (proj2 (C6_failed_refresh_goes_unreported
                                         (H := Fragment.node) bare_client
                                         sounds_body r200)))
                        (JObj [("status", JNum (S754_finite false 1 Z0));
                               ("sounds", JObj [("bell", JStr "Bell")])])
                        JUndefined (JObj [("bell", JStr "Bell")])
                        eq_refl eq_refl eq_refl eq_refl)).
Defined.

(** ** The completion handler of send (C2) *)

Lemma fn_calls_app (l l' : list call) :
  fn_calls (l ++ l') = (fn_calls l ++ fn_calls l')%list.
Proof. apply filter_app. Qed.

Lemma deliver_app {S} (step : S -> event -> M S) (st : S)
      (evs evs' : list event) :
  deliver step st (evs ++ evs')
  = let (l, s) := deliver step st evs in
    let (l', s') := deliver step s evs' in ((l ++ l')%list, s').
Proof.
  revert st. induction evs as [|ev evs IH]; intro st; cbn [app deliver].
  - destruct (deliver step st evs'); reflexivity.
  - destruct (step st ev) as [l [st'|e]].
    + rewrite IH. destruct (deliver step st' evs) as [l1 s1].
      destruct (deliver step s1 evs') as [l2 s2].
      now rewrite app_assoc.
    + rewrite IH. destruct (deliver step st evs) as [l1 s1].
      destruct (deliver step s1 evs') as [l2 s2].
      now rewrite <- app_assoc.
Qed.

Section Completion.
Context `{Platform}.

Lemma send_step_End (self : Client.t) (st : pending) (res : response)
      (data : string) :
  resp st = Some (res, data) ->
  send_step self st End
  = match errors self (JStr data) (Some res) with
    | (l, Ret _) =>
        ((l ++ if fn st then [Fn JUndefined (Some data) (Some res)] else [])%list,
         Ret st)
    | (l, Throw e) => (l, Throw e)
    end.
Proof.
  intro E. unfold send_step. rewrite E.
  destruct (errors self (JStr data) (Some res)) as [l [[]|e]];
    destruct (fn st); cbn; rewrite ?app_nil_r; reflexivity.
Qed.

Lemma send_step_silenced (self : Client.t) (st : pending) (ev : event) :
  fn st = false ->
  fn_calls (calls (send_step self st ev)) = []
  /\ (forall st', result (send_step self st ev) = Ret st' -> fn st' = false).
Proof.
  intro F. destruct ev as [res|chunk| |e];
    destruct (resp st) as [[res0 data]|] eqn:R.
  3-4: unfold send_step; rewrite R; cbn; split;
    [reflexivity | intros st' E; injection E as <-; exact F].
  3: { rewrite (send_step_End self st res0 data R).
       pose proof (errors_no_fn self (JStr data) (Some res0)) as N.
       destruct (errors self (JStr data) (Some res0)) as [l [[]|e]];
         rewrite ?F; cbn in N |- *; rewrite ?app_nil_r; split; try exact N.
       - intros st' E; injection E as <-; exact F.
       - intros st' E; discriminate E. }
  3: { unfold send_step; rewrite R; cbn; split;
       [reflexivity | intros st' E; injection E as <-; exact F]. }
  all: unfold send_step; rewrite ?R, ?F; destruct (Client.debug self); cbn;
    (split; [reflexivity | intros st' E; injection E as <-; try exact F;
                           reflexivity]).
Qed.

(** Once [fn] is null no event calls the handler. *)
Lemma deliver_silenced (self : Client.t) (evs : list event) (st : pending) :
  fn st = false ->
  fn_calls (fst (deliver (send_step self) st evs)) = [].
Proof.
  revert st. induction evs as [|ev evs IH]; intros st F; [reflexivity|].
  cbn [deliver]. destruct (send_step_silenced self st ev F) as [N K].
  destruct (send_step self st ev) as [l [st'|e]];
    unfold calls, result in N, K; cbn [fst snd] in N, K.
  - specialize (IH st' (K st' eq_refl)).
    destruct (deliver (send_step self) st' evs) as [l' s'].
    cbn [fst snd] in IH |- *.
    now rewrite fn_calls_app, N, IH.
  - specialize (IH st F).
    destruct (deliver (send_step self) st evs) as [l' s'].
    cbn [fst snd] in IH |- *.
    rewrite fn_calls_app, N. cbn [app]. exact IH.
Qed.

Lemma send_step_quiet (self : Client.t) (st : pending) (ev : event) :
  quiet ev = true ->
  exists l st', send_step self st ev = (l, Ret st')
                /\ fn_calls l = [] /\ fn st' = fn st.
Proof.
  intro Q. destruct ev as [res|chunk| |e]; try discriminate Q;
    unfold send_step; destruct (resp st) as [[res0 data]|];
      destruct (Client.debug self); cbn;
        do 2 eexists; (split; [reflexivity | split; reflexivity]).
Qed.

(** The response and its chunks call nothing and leave [fn] alone. *)
Lemma deliver_quiet (self : Client.t) (evs : list event) (st : pending) :
  forallb quiet evs = true ->
  fn_calls (fst (deliver (send_step self) st evs)) = []
  /\ fn (snd (deliver (send_step self) st evs)) = fn st.
Proof.
  revert st. induction evs as [|ev evs IH]; intros st Q; [now split|].
  cbn [forallb] in Q. apply andb_prop in Q. destruct Q as [Qe Q].
  cbn [deliver].
  destruct (send_step_quiet self st ev Qe) as (l & st' & E & N & F).
  rewrite E. destruct (IH st' Q) as [IH1 IH2].
  destruct (deliver (send_step self) st' evs) as [l' s'].
  cbn [fst snd] in IH1, IH2 |- *.
  rewrite fn_calls_app, N, IH1, IH2. now split.
Qed.

(** The chunks of a response accumulate into [data]. *)
Lemma deliver_chunks (self : Client.t) (chunks : list string)
      (st : pending) (res : response) (data : string) :
  resp st = Some (res, data) ->
  deliver (send_step self) st (map Data chunks)
  = ([], {| fn := fn st; resp := Some (res, fold_left append chunks data) |}).
Proof.
  revert st data. induction chunks as [|c chunks IH]; intros st data R.
  - cbn. destruct st as [f r]. cbn in R. now subst r.
  - cbn [map deliver]. unfold send_step at 1. rewrite R. cbn.
    rewrite (IH _ (data ++ c)) by reflexivity. reflexivity.
Qed.

(** C2, amended.  With a handler supplied: when the request reports an
    error before its response ended, the handler is called exactly once,
    with the error alone, and no later event of the request calls it
    again; when the response arrives and ends, the handler is called
    exactly once with [undefined], the accumulated body and the response
    if the check of the body by [errors] returns, and is not called if
    that check throws. *)
Theorem C2_completion_protocol (self : Client.t) :
  (forall pre e post,
      forallb quiet pre = true ->
      fn_calls (send_events self true (pre ++ Error e :: post))
      = [Fn e None None])
  /\ (forall res chunks,
         fn_calls (send_events self true
                               (Response res :: map Data chunks ++ [End]))
         = match result (errors self (JStr (fold_left append chunks ""))
                                (Some res)) with
           | Ret _ => [Fn JUndefined (Some (fold_left append chunks ""))
                          (Some res)]
           | Throw _ => []
           end).
Proof.
  split.
  - intros pre e post Q. unfold send_events. rewrite deliver_app.
    destruct (deliver_quiet self pre {| fn := true; resp := None |} Q)
      as [N F].
    destruct (deliver (send_step self) {| fn := true; resp := None |} pre)
      as [l s]. cbn [fst snd fn] in N, F.
    cbn [deliver]. unfold send_step at 1. rewrite F. cbn [bind emit ret app].
    pose proof (deliver_silenced self post {| fn := false; resp := resp s |}
                                 eq_refl) as P.
    destruct (deliver (send_step self) {| fn := false; resp := resp s |} post)
      as [l' s']. cbn [fst snd] in P |- *.
    rewrite fn_calls_app, N. cbn [app]. cbn [fn_calls filter].
    fold (fn_calls l'). now rewrite P.
  - intros res chunks. unfold send_events. cbn [deliver].
    assert (S : exists l, send_step self {| fn := true; resp := None |}
                                    (Response res)
                          = (l, Ret {| fn := true; resp := Some (res, "") |})
                          /\ fn_calls l = []).
    { unfold send_step. destruct (Client.debug self); cbn;
        eexists; split; reflexivity. }
    destruct S as (l & S & N). rewrite S.
    rewrite deliver_app.
    rewrite (deliver_chunks self chunks _ res "") by reflexivity.
    cbn [fn deliver].
    rewrite (send_step_End self _ res (fold_left append chunks ""))
      by reflexivity.
    pose proof (errors_no_fn self (JStr (fold_left append chunks ""))
                             (Some res)) as NE.
    destruct (errors self (JStr (fold_left append chunks "")) (Some res))
      as [le [[]|ex]]; unfold calls, result in *; cbn [fst snd fn app] in *.
    + rewrite !fn_calls_app, N, NE. reflexivity.
    + rewrite !fn_calls_app, N, NE. reflexivity.
Qed.

End Completion.

(** C2, as stated, fails: a client without [onerror] receives a response
    that carries an error list; [errors] throws, as its documentation says,
    and the handler passed to [send] is never called. *)
Lemma C2_handler_never_called :
  send_events (H := Fragment.node) bare_client true
              [Response r400; Data invalid_token_body; End]
  = [Uncaught (ErrorOf (JStr "application token is invalid"))]
  /\ List.length
       (fn_calls (send_events (H := Fragment.node) bare_client true
                              [Response r400; Data invalid_token_body; End]))
     = 0.
Proof. split; reflexivity. Qed.

Lemma C2_completion_protocol_witness :
  forallb quiet [Response r200; Data "{}"] = true
  /\ fn_calls (send_events (H := Fragment.node) handled_client true
                           ([Response r200; Data "{}"]
                              ++ Error econnrefused :: [End; Error JNull]))
     = [Fn econnrefused None None].
Proof.
  split; [reflexivity|].
  apply (proj1 (C2_completion_protocol (H := Fragment.node) handled_client)).
  reflexivity.
Defined.

(** ** Property lists *)

Module ObjFacts.
Section Facts.
Context {V : Type}.
Implicit Types (o : Obj.t V) (k : string) (v : V).

Lemma get_set_same o k v : Obj.get (Obj.set o k v) k = Some v.
Proof.
  induction o as [|[k' v'] o IH]; cbn.
  - now rewrite String.eqb_refl.
  - destruct (String.eqb k' k) eqn:E; cbn.
    + now rewrite String.eqb_refl.
    + now rewrite E.
Qed.

Lemma get_set_other o k k' v :
  k <> k' -> Obj.get (Obj.set o k v) k' = Obj.get o k'.
Proof.
  intro N. induction o as [|[k0 v0] o IH]; cbn.
  - apply String.eqb_neq in N. now rewrite N.
  - destruct (String.eqb k0 k) eqn:E; cbn.
    + apply String.eqb_eq in E. subst k0.
      apply String.eqb_neq in N. now rewrite N.
    + destruct (String.eqb k0 k'); [reflexivity | exact IH].
Qed.

Lemma get_None o k : Obj.get o k = None <-> ~ In k (Obj.keys o).
Proof.
  induction o as [|[k' v'] o IH]; cbn.
  - tauto.
  - destruct (String.eqb k' k) eqn:E.
    + apply String.eqb_eq in E. split; [discriminate | tauto].
    + apply String.eqb_neq in E. rewrite IH. tauto.
Qed.

Lemma get_Some_In o k v : Obj.get o k = Some v -> In (k, v) o.
Proof.
  induction o as [|[k' v'] o IH]; cbn; [discriminate|].
  destruct (String.eqb k' k) eqn:E.
  - apply String.eqb_eq in E. intro S. injection S as ->. subst. now left.
  - intro S. right. now apply IH.
Qed.

Lemma In_get o k v : Obj.wf o -> In (k, v) o -> Obj.get o k = Some v.
Proof.
  unfold Obj.wf, Obj.keys. induction o as [|[k' v'] o IH]; cbn; [tauto|].
  intros W [E|I].
  - injection E as -> ->. now rewrite String.eqb_refl.
  - inversion W as [|? ? N W']; subst.
    destruct (String.eqb k' k) eqn:E.
    + apply String.eqb_eq in E. subst k'. exfalso. apply N.
      change k with (fst (k, v)). now apply in_map.
    + now apply IH.
Qed.

Lemma set_new o k v : Obj.get o k = None -> Obj.set o k v = (o ++ [(k, v)])%list.
Proof.
  induction o as [|[k' v'] o IH]; cbn; [reflexivity|].
  destruct (String.eqb k' k); [discriminate|]. intro N. now rewrite IH.
Qed.

Lemma keys_set o k v k' :
  In k' (Obj.keys (Obj.set o k v)) <-> k' = k \/ In k' (Obj.keys o).
Proof.
  unfold Obj.keys. induction o as [|[k0 v0] o IH]; cbn.
  - intuition.
  - destruct (String.eqb k0 k) eqn:E; cbn.
    + apply String.eqb_eq in E. subst k0. intuition.
    + rewrite IH. intuition.
Qed.

Lemma wf_set o k v : Obj.wf o -> Obj.wf (Obj.set o k v).
Proof.
  unfold Obj.wf. induction o as [|[k0 v0] o IH]; cbn; intro W.
  - constructor; [tauto | constructor].
  - inversion W as [|? ? N W']; subst.
    destruct (String.eqb k0 k) eqn:E; cbn.
    + apply String.eqb_eq in E. subst k0. now constructor.
    + constructor; [|now apply IH].
      intro I. apply keys_set in I. destruct I as [->|I]; [|tauto].
      now rewrite String.eqb_refl in E.
Qed.

Lemma insert_by_index_perm (x : N * (string * V)) l :
  Permutation (Obj.insert_by_index x l) (x :: l).
Proof.
  induction l as [|y l IH]; cbn; [reflexivity|].
  destruct (N.leb (fst x) (fst y)); [reflexivity|].
  rewrite IH. apply perm_swap.
Qed.

(** [for ... in] visits every property once. *)
Lemma for_in_perm o : Permutation (Obj.for_in o) o.
Proof.
  unfold Obj.for_in, Obj.index_props, Obj.named_props.
  induction o as [|[k v] o IH]; cbn; [reflexivity|].
  unfold Obj.tag_index at 1. cbn [fst].
  destruct (Obj.array_index k) as [n|]; cbn.
  - rewrite insert_by_index_perm. cbn. now rewrite IH.
  - rewrite <- Permutation_middle. now rewrite IH.
Qed.

Lemma for_in_In o (kv : string * V) : In kv (Obj.for_in o) <-> In kv o.
Proof.
  split; apply Permutation_in; [|symmetry]; apply for_in_perm.
Qed.

Lemma for_in_wf o : Obj.wf o -> Obj.wf (Obj.for_in o).
Proof.
  unfold Obj.wf, Obj.keys. intro W.
  eapply Permutation_NoDup; [|exact W].
  apply Permutation_map. symmetry. apply for_in_perm.
Qed.

End Facts.
End ObjFacts.

(** ** querystring: parse after stringify *)

Module QsFacts.
Import Qs.

Lemma contains_app (c : ascii) (s t : string) :
  contains c (s ++ t) = contains c s || contains c t.
Proof.
  induction s as [|d s IH]; cbn; [reflexivity|].
  rewrite IH. now rewrite orb_assoc.
Qed.

(** An escaped byte holds none of the characters the parser gives a
    meaning to. *)
Lemma escape_byte_clean (c : ascii) :
  contains "&" (escape_byte c) = false
  /\ contains "=" (escape_byte c) = false
  /\ contains "+" (escape_byte c) = false.
Proof.
  destruct c as [[] [] [] [] [] [] [] []]; repeat split; reflexivity.
Qed.

Lemma escape_clean (s : string) :
  contains "&" (escape s) = false
  /\ contains "=" (escape s) = false
  /\ contains "+" (escape s) = false.
Proof.
  induction s as [|c s (IH1 & IH2 & IH3)]; cbn [escape].
  - repeat split; reflexivity.
  - destruct (escape_byte_clean c) as (B1 & B2 & B3).
    rewrite !contains_app, IH1, IH2, IH3, B1, B2, B3. repeat split; reflexivity.
Qed.

Lemma unescape_escape_byte (c : ascii) (t : string) :
  unescape (escape_byte c ++ t) = String c (unescape t).
Proof.
  destruct c as [[] [] [] [] [] [] [] []]; reflexivity.
Qed.

Lemma unescape_escape (s : string) : unescape (escape s) = s.
Proof.
  induction s as [|c s IH]; cbn [escape]; [reflexivity|].
  now rewrite unescape_escape_byte, IH.
Qed.

Lemma plus_to_space_id (s : string) :
  contains "+" s = false -> plus_to_space s = s.
Proof.
  induction s as [|c s IH]; cbn; [reflexivity|].
  intro N. apply orb_false_elim in N. destruct N as [N1 N2].
  now rewrite N1, IH.
Qed.

Theorem decode_escape (s : string) : decode (escape s) = s.
Proof.
  unfold decode. rewrite plus_to_space_id by apply escape_clean.
  apply unescape_escape.
Qed.

Lemma split_on_clean (sep : ascii) (s : string) :
  contains sep s = false -> split_on sep s = [s].
Proof.
  induction s as [|c s IH]; cbn; [reflexivity|].
  intro N. apply orb_false_elim in N. destruct N as [N1 N2].
  now rewrite N1, IH.
Qed.

Lemma split_on_app (sep : ascii) (s t : string) :
  contains sep s = false ->
  split_on sep (s ++ String sep t) = s :: split_on sep t.
Proof.
  induction s as [|c s IH]; cbn.
  - now rewrite Ascii.eqb_refl.
  - intro N. apply orb_false_elim in N. destruct N as [N1 N2].
    now rewrite N1, IH.
Qed.

Lemma split_on_join (sep : ascii) (l : list string) :
  Forall (fun s => contains sep s = false) l ->
  l <> [] ->
  split_on sep (join (String sep EmptyString) l) = l.
Proof.
  induction l as [|x l IH]; [congruence|]. intros F _.
  inversion F as [|? ? Fx Fl]; subst.
  destruct l as [|y l].
  - cbn. now apply split_on_clean.
  - rewrite join_cons. cbn [append].
    rewrite split_on_app by exact Fx. f_equal. apply IH; [exact Fl | congruence].
Qed.

Lemma cut_eq_app (k v : string) :
  contains "=" k = false -> cut_eq (k ++ String "=" v) = Some (k, v).
Proof.
  induction k as [|c k IH]; cbn; [reflexivity|].
  intro N. apply orb_false_elim in N. destruct N as [N1 N2].
  now rewrite N1, IH.
Qed.

Lemma parse_segment_pair (k v : string) :
  parse_segment (escape k ++ "=" ++ escape v) = Some (k, v).
Proof.
  unfold parse_segment. cbn [append].
  rewrite cut_eq_app by apply escape_clean.
  now rewrite !decode_escape.
Qed.

Section RoundTrip.
Context {V : Type} (prim : V -> string).

Lemma pair_str_clean (kv : string * V) :
  contains "&" (pair_str prim kv) = false.
Proof.
  unfold pair_str. rewrite !contains_app. cbn.
  destruct (escape_clean (fst kv)) as (-> & _).
  destruct (escape_clean (prim (snd kv))) as (-> & _). reflexivity.
Qed.

Lemma fold_add_seg (l : list (string * V)) (acc : Obj.t value) :
  NoDup (Obj.keys acc ++ map fst l) ->
  fold_left add_seg (map (pair_str prim) l) acc
  = (acc ++ map (fun kv => (fst kv, QStr (prim (snd kv)))) l)%list.
Proof.
  revert acc. induction l as [|[k v] l IH]; intros acc N; cbn [map fold_left].
  - now rewrite app_nil_r.
  - unfold add_seg at 2, pair_str at 2. cbn [fst snd].
    rewrite parse_segment_pair. unfold addKeyValue.
    assert (G : Obj.get acc k = None).
    { apply ObjFacts.get_None. intro I.
      apply NoDup_remove_2 in N. apply N. apply in_or_app. now left. }
    rewrite G, (ObjFacts.set_new _ _ _ G). rewrite IH.
    + now rewrite <- app_assoc.
    + unfold Obj.keys in *. rewrite map_app. cbn [map fst].
      rewrite <- app_assoc. exact N.
Qed.

Lemma NoDup_firstn {A} (n : nat) (l : list A) : NoDup l -> NoDup (firstn n l).
Proof.
  intro N. rewrite <- (firstn_skipn n l) in N.
  now apply NoDup_app_remove_r in N.
Qed.

(** Parsing the stringified object gives back, of the first [maxKeys]
    properties in enumeration order, the key with the string its value
    was turned into; the properties after these are lost. *)
Theorem parse_stringify (o : Obj.t V) :
  Obj.wf o ->
  parse (stringify prim o)
  = map (fun kv => (fst kv, QStr (prim (snd kv))))
        (firstn maxKeys (Obj.for_in o)).
Proof.
  intro W. apply ObjFacts.for_in_wf in W. unfold parse, stringify.
  destruct (Obj.for_in o) as [|kv l] eqn:E.
  - reflexivity.
  - rewrite split_on_join.
    + rewrite firstn_map. rewrite fold_add_seg; [reflexivity|].
      cbn [Obj.keys map app]. rewrite <- firstn_map.
      now apply NoDup_firstn.
    + apply Forall_forall. intros s I. apply in_map_iff in I.
      destruct I as (x & <- & _). apply pair_str_clean.
    + discriminate.
Qed.

(** A record of no more than [maxKeys] properties comes back whole. *)
Corollary parse_stringify_small (o : Obj.t V) :
  Obj.wf o -> (List.length o <= maxKeys)%nat ->
  parse (stringify prim o)
  = map (fun kv => (fst kv, QStr (prim (snd kv)))) (Obj.for_in o).
Proof.
  intros W L. rewrite (parse_stringify o W). rewrite firstn_all2; [reflexivity|].
  now rewrite (Permutation_length (ObjFacts.for_in_perm o)).
Qed.

End RoundTrip.
End QsFacts.

(** ** Default filling and the request map *)

Module SendFacts.
Import ObjFacts.

Lemma mget_set_same (o : Obj.t mval) k v : mget (Obj.set o k v) k = v.
Proof. unfold mget. now rewrite get_set_same. Qed.

Lemma mget_set_other (o : Obj.t mval) k k' v :
  k <> k' -> mget (Obj.set o k v) k' = mget o k'.
Proof. intro N. unfold mget. now rewrite get_set_other. Qed.

Lemma get_fill_fold (l : list string) (o : Obj.t mval) (k : string) :
  Obj.get (fold_left fill l o) k
  = if existsb (String.eqb k) l && falsy (mget o k)
    then Some (MStr "") else Obj.get o k.
Proof.
  revert o. induction l as [|a l IH]; intro o; cbn [fold_left existsb].
  - reflexivity.
  - rewrite IH. unfold fill.
    destruct (String.eqb k a) eqn:E.
    + apply String.eqb_eq in E. subst a. cbn [orb].
      destruct (falsy (mget o k)) eqn:F.
      * rewrite mget_set_same, get_set_same. cbn.
        now destruct (existsb (String.eqb k) l).
      * rewrite F. now rewrite !andb_false_r.
    + apply String.eqb_neq in E. cbn [orb].
      destruct (falsy (mget o a)).
      * rewrite mget_set_other, get_set_other by congruence. reflexivity.
      * reflexivity.
Qed.

Lemma setDefaults_get (o : Obj.t mval) (k : string) :
  Obj.get (setDefaults o) k
  = if existsb (String.eqb k) def && falsy (mget o k)
    then Some (MStr "") else Obj.get o k.
Proof. apply get_fill_fold. Qed.

Lemma setDefaults_wf (o : Obj.t mval) : Obj.wf o -> Obj.wf (setDefaults o).
Proof.
  unfold setDefaults. generalize def as l. intro l. revert o.
  induction l as [|a l IH]; intros o W; cbn [fold_left]; [exact W|].
  apply IH. unfold fill. destruct (falsy (mget o a)); [now apply wf_set | exact W].
Qed.

(** A truthy field is left as it is. *)
Lemma setDefaults_keeps (o : Obj.t mval) (k : string) (v : mval) :
  Obj.get o k = Some v -> falsy v = false ->
  Obj.get (setDefaults o) k = Some v.
Proof.
  intros G F. rewrite setDefaults_get. unfold mget. rewrite G, F.
  now rewrite andb_false_r.
Qed.

Lemma get_for_in {V} (o : Obj.t V) (k : string) :
  Obj.wf o -> Obj.get (Obj.for_in o) k = Obj.get o k.
Proof.
  intro W. destruct (Obj.get o k) as [v|] eqn:G.
  - apply In_get; [now apply for_in_wf|].
    apply (proj2 (for_in_In _ _)). now apply get_Some_In.
  - apply get_None. apply get_None in G. intro I. apply G.
    unfold Obj.keys in *. apply in_map_iff in I. destruct I as (kv & <- & I).
    apply in_map. now apply (proj1 (for_in_In _ _)).
Qed.

Lemma get_copy_fold (l acc : Obj.t mval) (k : string) :
  Obj.wf l ->
  Obj.get (fold_left copy l acc) k
  = match Obj.get l k with
    | Some v => if not_empty_string v && negb (String.eqb k "file")
                then Some v else Obj.get acc k
    | None => Obj.get acc k
    end.
Proof.
  revert acc. induction l as [|[k0 v0] l IH]; intros acc W;
    cbn [fold_left Obj.get]; [reflexivity|].
  inversion W as [|? ? N W']; subst. rewrite (IH _ W').
  destruct (String.eqb k0 k) eqn:E.
  - apply String.eqb_eq in E. subst k0.
    apply get_None in N. rewrite N. unfold copy. cbn [fst snd].
    destruct (not_empty_string v0); cbn [andb]; [|reflexivity].
    destruct (negb (String.eqb k "file")); [|reflexivity].
    apply get_set_same.
  - apply String.eqb_neq in E.
    assert (G : Obj.get (copy acc (k0, v0)) k = Obj.get acc k).
    { unfold copy. cbn [fst snd]. destruct (not_empty_string v0); [|reflexivity].
      destruct (negb (String.eqb k0 "file")); [|reflexivity].
      now apply get_set_other. }
    now rewrite G.
Qed.

Lemma wf_copy_fold (l acc : Obj.t mval) :
  Obj.wf acc -> Obj.wf (fold_left copy l acc).
Proof.
  revert acc. induction l as [|pv l IH]; intros acc W; cbn [fold_left];
    [exact W|].
  apply IH. unfold copy. destruct (not_empty_string (snd pv)); [|exact W].
  destruct (negb (String.eqb (fst pv) "file")); [now apply wf_set | exact W].
Qed.

Lemma build_reqString_get (self : Client.t) (obj : Obj.t mval) (k : string) :
  Obj.wf obj ->
  Obj.get (build_reqString self obj) k
  = match Obj.get obj k with
    | Some v => if not_empty_string v && negb (String.eqb k "file")
                then Some v else Obj.get (base self obj) k
    | None => Obj.get (base self obj) k
    end.
Proof.
  intro W. unfold build_reqString.
  rewrite get_copy_fold by now apply for_in_wf.
  now rewrite get_for_in.
Qed.

Lemma build_reqString_wf (self : Client.t) (obj : Obj.t mval) :
  Obj.wf (build_reqString self obj).
Proof.
  unfold build_reqString. apply wf_copy_fold.
  unfold Obj.wf. cbn. repeat constructor; cbn; intuition discriminate.
Qed.

Lemma In_firstn {A} (n : nat) (l : list A) (x : A) :
  In x (firstn n l) -> In x l.
Proof.
  intro I. rewrite <- (firstn_skipn n l). apply in_or_app. now left.
Qed.

(** Every part [send] transmits is an entry of the request map whose
    string form is not empty. *)
Lemma send_parts_In (self : Client.t) (obj : Obj.t mval) (k s : string) :
  In (k, s) (send_parts self obj) ->
  exists v, Obj.get (build_reqString self (setDefaults obj)) k = Some v
            /\ stringifyPrimitive v = s /\ s <> "".
Proof.
  unfold send_parts, text_parts.
  pose proof (build_reqString_wf self (setDefaults obj)) as W.
  rewrite (QsFacts.parse_stringify _ _ W).
  set (m := build_reqString self (setDefaults obj)) in *.
  rewrite in_map_iff.
  intros ([k' q] & E & I). cbn [fst snd] in E. injection E as -> Es.
  apply filter_In in I. destruct I as [I NE].
  apply (proj1 (for_in_In _ _)) in I. apply in_map_iff in I.
  destruct I as ([k0 v] & E & I). cbn [fst snd] in E. injection E as -> <-.
  apply In_firstn in I.
  apply (proj1 (for_in_In _ _)) in I. exists v. cbn in Es, NE. subst s.
  split; [now apply In_get|]. split; [reflexivity|].
  destruct (stringifyPrimitive v); [discriminate NE | discriminate].
Qed.

(** An entry of the request map whose string form is not empty is a part,
    provided the map is within the limit of the parser. *)
Lemma send_parts_intro (self : Client.t) (obj : Obj.t mval) (k : string)
      (v : mval) :
  (List.length (build_reqString self (setDefaults obj)) <= Qs.maxKeys)%nat ->
  Obj.get (build_reqString self (setDefaults obj)) k = Some v ->
  stringifyPrimitive v <> "" ->
  In (k, stringifyPrimitive v) (send_parts self obj).
Proof.
  intros L G NE. unfold send_parts, text_parts.
  pose proof (build_reqString_wf self (setDefaults obj)) as W.
  rewrite (QsFacts.parse_stringify_small _ _ W L).
  set (m := build_reqString self (setDefaults obj)) in *.
  apply in_map_iff. exists (k, Qs.QStr (stringifyPrimitive v)).
  split; [reflexivity|]. apply filter_In. split.
  - apply (proj2 (for_in_In _ _)). apply in_map_iff.
    exists (k, v). split; [reflexivity|].
    apply (proj2 (for_in_In _ _)). now apply get_Some_In.
  - cbn. destruct (stringifyPrimitive v); [congruence | reflexivity].
Qed.

End SendFacts.

(** ** The request map (C5) and the parts sent (C3) *)

Lemma falsy_false_not_empty (v : mval) :
  falsy v = false -> not_empty_string v = true.
Proof.
  destruct v as [|s|i]; cbn; try discriminate; [|reflexivity]. now intros ->.
Qed.

(** A field that is set and truthy goes into the request map as it is,
    unless it is [file]. *)
Lemma build_reqString_copies (self : Client.t) (obj : Obj.t mval)
      (k : string) (v : mval) :
  Obj.wf obj ->
  Obj.get obj k = Some v -> falsy v = false -> k <> "file" ->
  Obj.get (build_reqString self (setDefaults obj)) k = Some v.
Proof.
  intros W G F N.
  rewrite SendFacts.build_reqString_get by now apply SendFacts.setDefaults_wf.
  rewrite (SendFacts.setDefaults_keeps obj k v G F).
  rewrite (falsy_false_not_empty v F).
  apply String.eqb_neq in N. now rewrite N.
Qed.

Lemma base_other (self : Client.t) (obj : Obj.t mval) (k : string) :
  k <> "token" -> k <> "user" -> Obj.get (base self obj) k = None.
Proof.
  intros Nt Nu. unfold base. cbn [Obj.get].
  destruct (String.eqb "token" k) eqn:Et;
    [apply String.eqb_eq in Et; congruence|].
  destruct (String.eqb "user" k) eqn:Eu;
    [apply String.eqb_eq in Eu; congruence|].
  reflexivity.
Qed.

Lemma hello_wf : Obj.wf hello.
Proof.
  unfold Obj.wf. cbn. repeat constructor; cbn; intuition discriminate.
Qed.




(** ** Concatenations and path segments *)

Lemma concat_empty_cons (x : string) (l : list string) :
  String.concat "" (x :: l) = x ++ String.concat "" l.
Proof. destruct l; cbn; [now rewrite append_nil_r | reflexivity]. Qed.

Lemma list_of_append (s t : string) :
  list_ascii_of_string (s ++ t)
  = (list_ascii_of_string s ++ list_ascii_of_string t)%list.
Proof. induction s as [|c s IH]; cbn; [reflexivity | now rewrite IH]. Qed.

Lemma no_slash_list (s : string) :
  contains "/" s = false -> ~ In "/"%char (list_ascii_of_string s).
Proof.
  induction s as [|c s IH]; cbn; [tauto|].
  intro C. apply orb_false_elim in C. destruct C as [C1 C2].
  apply Ascii.eqb_neq in C1. intros [I|I]; [congruence | now apply IH].
Qed.

Lemma take_segment_app (l r : list ascii) :
  ~ In "/"%char l -> Path.take_segment (l ++ "/"%char :: r) = l.
Proof.
  induction l as [|c l IH]; intro N; cbn.
  - reflexivity.
  - destruct (Ascii.eqb c "/") eqn:E.
    + apply Ascii.eqb_eq in E. subst c. exfalso. apply N. now left.
    + rewrite IH; [reflexivity|]. intro I. apply N. now right.
Qed.

Lemma drop_slashes_head (l : list ascii) :
  l <> [] -> ~ In "/"%char l -> forall r, Path.drop_slashes (l ++ r) = (l ++ r)%list.
Proof.
  destruct l as [|c l]; [congruence|]. intros _ N r. cbn.
  destruct (Ascii.eqb c "/") eqn:E; [|reflexivity].
  apply Ascii.eqb_eq in E. subst c. exfalso. apply N. now left.
Qed.

Lemma take_segment_id (l : list ascii) :
  ~ In "/"%char l -> Path.take_segment l = l.
Proof.
  induction l as [|c l IH]; intro N; cbn; [reflexivity|].
  destruct (Ascii.eqb c "/") eqn:E.
  - apply Ascii.eqb_eq in E. subst c. exfalso. apply N. now left.
  - rewrite IH; [reflexivity|]. intro I. apply N. now right.
Qed.

Lemma drop_slashes_id (l : list ascii) :
  ~ In "/"%char l -> Path.drop_slashes l = l.
Proof.
  destruct l as [|c l]; intro N; cbn; [reflexivity|].
  destruct (Ascii.eqb c "/") eqn:E; [|reflexivity].
  apply Ascii.eqb_eq in E. subst c. exfalso. apply N. now left.
Qed.

(** The base name of a path that ends in a segment without separator,
    alone or after a separator, is that segment. *)
Lemma basename_segment (path name : string) :
  path = name \/ (exists dir, path = dir ++ "/" ++ name) ->
  name <> "" -> contains "/" name = false ->
  Path.basename path = name.
Proof.
  intros P NE C.
  assert (N : ~ In "/"%char (rev (list_ascii_of_string name))).
  { intro I. apply in_rev in I. now apply (no_slash_list name C). }
  unfold Path.basename. destruct P as [-> | [dir ->]].
  - rewrite (drop_slashes_id _ N), (take_segment_id _ N), rev_involutive.
    apply string_of_list_ascii_of_string.
  - rewrite list_of_append. cbn [append list_ascii_of_string].
    rewrite rev_app_distr. cbn [rev]. rewrite <- app_assoc. cbn [app].
    assert (NN : rev (list_ascii_of_string name) <> []).
    { destruct name as [|c name]; [congruence|]. cbn.
      intro E. now apply app_eq_nil in E. }
    rewrite (drop_slashes_head _ NN N), (take_segment_app _ _ N).
    rewrite rev_involutive. apply string_of_list_ascii_of_string.
Qed.

Lemma concat_map_split {A} (f : A -> string) (l1 l2 : list A) (x : A) :
  String.concat "" (map f (l1 ++ x :: l2))
  = String.concat "" (map f l1) ++ f x ++ String.concat "" (map f l2).
Proof.
  induction l1 as [|y l1 IH]; cbn [app map].
  - now rewrite concat_empty_cons.
  - rewrite !concat_empty_cons, IH. now rewrite append_assoc.
Qed.

(** ** The synchronous part of send *)

Section Send.
Context `{Platform}.

(** The payload is the encoding of the request string with the resolved
    attachment. *)
Lemma build_payload_resolve (rs b : string) (file : mval) :
  build_payload rs b file
  = bind (resolve_attachment file) (fun att => ret (reqString2MP rs b att)).
Proof.
  unfold build_payload, resolve_attachment.
  destruct file as [|path|img]; cbn; try reflexivity.
  destruct path; cbn; [reflexivity|].
  destruct (loadImage _) as [l [img|e]]; cbn; rewrite ?app_nil_r; reflexivity.
Qed.

Lemma setDefaults_file (obj : Obj.t mval) :
  mget (setDefaults obj) "file" = mget obj "file".
Proof. unfold mget. now rewrite SendFacts.setDefaults_get. Qed.

Lemma bind_Ret {A B} (m : M A) (k : A -> M B) (b : B) :
  result (bind m k) = Ret b ->
  exists l a, m = (l, Ret a) /\ result (k a) = Ret b.
Proof.
  destruct m as [l [a|e]]; cbn [bind]; [|discriminate].
  intro R. exists l, a. split; [reflexivity|].
  destruct (k a) as [l' r]. exact R.
Qed.

(** What a returned request is made of. *)
Lemma send_inv (self : Client.t) (obj : Obj.t mval) (req : request) :
  result (send self obj) = Ret req ->
  exists l att,
    resolve_attachment (mget obj "file") = (l, Ret att)
    /\ payload req
       = reqString2MP (request_string self obj) (Client.boundary self) att
    /\ let o := copy_httpOptions
                  (httpOpts_of self)
                  (Obj.set (Obj.set (url_parse pUrl) "method" (OStr "POST"))
                           "headers" (headers self (payload req))) in
       if proxy_given (httpOpts_of self)
       then exists l', apply_proxy (httpOpts_of self) o = (l', Ret (options req))
       else options req = o.
Proof.
  unfold send. rewrite build_payload_resolve, setDefaults_file.
  intro R.
  apply bind_Ret in R. destruct R as (l0 & mp & Emp & R).
  apply (f_equal snd) in Emp. apply bind_Ret in Emp.
  destruct Emp as (l & att & A & Emp).
  apply bind_Ret in R. destruct R as (l1 & o & Eo & R).
  apply bind_Ret in R. destruct R as (l2 & u & _ & R).
  injection R as <-. injection Emp as <-. cbn [payload options].
  exists l, att. split; [exact A|]. split; [reflexivity|].
  change (Qs.stringify stringifyPrimitive
            (build_reqString self (setDefaults obj)))
    with (request_string self obj) in Eo.
  destruct (proxy_given (httpOpts_of self)).
  - exists l1. exact Eo.
  - now injection Eo as _ <-.
Qed.

(** [send] issues its request whenever the attachment can be resolved and
    no proxy is configured. *)
Lemma send_returns (self : Client.t) (obj : Obj.t mval) (l : list call)
      (att : option ImgObj.t) :
  resolve_attachment (mget obj "file") = (l, Ret att) ->
  proxy_given (httpOpts_of self) = false ->
  exists req, result (send self obj) = Ret req.
Proof.
  intros R P. unfold send.
  rewrite build_payload_resolve, setDefaults_file, R, P.
  cbn [bind ret app]. destruct (Client.debug self);
    cbn [bind ret emit app result snd]; eexists; reflexivity.
Qed.

Lemma copy_httpOptions_get (h o : Obj.t oval) (k : string) :
  ~ In k (Obj.keys h) ->
  Obj.get (copy_httpOptions h o) k = Obj.get o k.
Proof.
  intro N. unfold copy_httpOptions.
  assert (N' : ~ In k (Obj.keys (Obj.for_in h))).
  { intro I. apply N. unfold Obj.keys in *. apply in_map_iff in I.
    destruct I as (kv & <- & I). apply in_map.
    now apply (proj1 (ObjFacts.for_in_In _ _)). }
  revert o N'. generalize (Obj.for_in h) as l.
  induction l as [|[k0 v0] l IH]; intros o N'; cbn [fold_left]; [reflexivity|].
  rewrite IH.
  - cbn [fst snd]. destruct (negb (String.eqb k0 "proxy")); [|reflexivity].
    apply ObjFacts.get_set_other. intro E. apply N'. left. exact E.
  - intro I. apply N'. right. exact I.
Qed.

Lemma apply_proxy_keeps (h o o' : Obj.t oval) (l : list call) (hs : Obj.t oval)
      (k : string) (v : oval) :
  apply_proxy h o = (l, Ret o') ->
  Obj.get o "method" = Some (OStr "POST") ->
  Obj.get o "headers" = Some (OObj hs) ->
  Obj.get hs k = Some v -> k <> "Host" ->
  Obj.get o' "method" = Some (OStr "POST")
  /\ exists hs', Obj.get o' "headers" = Some (OObj hs')
                 /\ Obj.get hs' k = Some v.
Proof.
  intros A M Hd G N. unfold apply_proxy, oget in A.
  destruct (match Obj.get h "proxy" with Some v0 => v0 | None => OUndef end);
    try discriminate A.
  rewrite Hd in A. cbn in A. injection A as _ <-. split.
  - rewrite !ObjFacts.get_set_other by discriminate. exact M.
  - rewrite 2 ObjFacts.get_set_other by discriminate.
    rewrite ObjFacts.get_set_same. eexists. split; [reflexivity|].
    rewrite ObjFacts.get_set_other by congruence. exact G.
Qed.

End Send.

Section SendClaims.
Context `{Platform}.

(** The encoder's framing is the spec's. *)
Lemma text_part_spec (b : string) (kv : string * string) :
  text_part b kv = spec_text_part b kv.
Proof.
  unfold text_part, spec_text_part, content_disposition.
  now rewrite !append_assoc.
Qed.

Lemma map_text_part_spec (b : string) (l : list (string * string)) :
  map (text_part b) l = map (spec_text_part b) l.
Proof. apply map_ext. apply text_part_spec. Qed.

Lemma attachment_head_spec (b name : string) (ty : option string) :
  attachment_head b name ty
  = spec_attachment_head b name (match ty with
                                 | Some t => t
                                 | None => "application/octet-stream"
                                 end).
Proof.
  unfold attachment_head, spec_attachment_head, attachment_disposition,
    content_type.
  now rewrite !append_assoc.
Qed.

(** What follows a run of text parts, when it opens with a boundary line,
    makes the whole open with a boundary line. *)
Lemma parts_then (b : string) (ps : list (string * string)) (t : string) :
  exists r,
    String.concat "" (map (spec_text_part b) ps) ++ b ++ CRLF ++ t
    = b ++ CRLF ++ r.
Proof.
  destruct ps as [|p ps].
  - now exists t.
  - cbn [map]. rewrite concat_empty_cons. unfold spec_text_part at 1.
    rewrite !append_assoc. eexists. reflexivity.
Qed.

(** A body with an attachment, in the spec's words. *)
Lemma with_spec (b : string) (parts : list (string * string))
      (img : ImgObj.t) :
  multipart_with b parts img
  = (Buffer_from_utf8
       (String.concat "" (map (spec_text_part b) parts)
        ++ spec_attachment_head b (ImgObj.name img)
             (match ImgObj.type img with
              | Some t => t
              | None => "application/octet-stream"
              end))
       ++ ImgObj.data img
       ++ Buffer_from_utf8 (CRLF ++ b ++ "--" ++ CRLF))%list.
Proof.
  unfold multipart_with, framing, closing.
  now rewrite map_text_part_spec, attachment_head_spec.
Qed.

(** A body without attachment whose last part is [y]. *)
Lemma without_snoc (b : string) (l : list (string * string))
      (y : string * string) :
  multipart_without b (l ++ [y])
  = Buffer_from_utf8
      ((String.concat "" (map (spec_text_part b) l)
        ++ b ++ CRLF
        ++ "Content-Disposition: form-data; name=" ++ DQUOTE ++ fst y
        ++ DQUOTE ++ CRLF ++ CRLF ++ snd y)
       ++ b ++ "--" ++ CRLF).
Proof.
  unfold multipart_without.
  destruct (l ++ [y])%list as [|p ps] eqn:E; [now destruct l|].
  rewrite <- E, removelast_last, last_last, map_text_part_spec.
  unfold content_disposition. now rewrite !append_assoc.
Qed.

(** A body without attachment is the parts in the spec's words, short of
    the CRLF that would end the last value, and the closing marker. *)
Lemma without_spec (b : string) (parts : list (string * string)) :
  exists head,
    multipart_without b parts
    = (head ++ Buffer_from_utf8 (b ++ "--" ++ CRLF))%list
    /\ match parts with
       | [] => head = []
       | _ :: _ =>
           (head ++ Buffer_from_utf8 CRLF)%list
           = Buffer_from_utf8
               (String.concat "" (map (spec_text_part b) parts))
       end.
Proof.
  destruct parts as [|p ps].
  - exists []. split; reflexivity.
  - assert (NE : p :: ps <> []) by discriminate.
    destruct (exists_last NE) as (l & y & E).
    cbv iota beta. rewrite E. rewrite without_snoc, utf8_app.
    eexists. split; [reflexivity|].
    rewrite <- utf8_app. f_equal.
    rewrite concat_map_split. cbn [map String.concat].
    unfold spec_text_part at 2. rewrite append_nil_r.
    now rewrite !append_assoc.
Qed.

(** Every part stands in a body with an attachment: boundary line, header
    line, blank line and value, and a CRLF and the next boundary line
    behind the value. *)
Lemma part_in_with (b k s : string) (parts : list (string * string))
      (img : ImgObj.t) :
  In (k, s) parts ->
  exists pre post,
    multipart_with b parts img
    = (Buffer_from_utf8
         (pre ++ b ++ CRLF
          ++ "Content-Disposition: form-data; name=" ++ DQUOTE ++ k ++ DQUOTE
          ++ CRLF ++ CRLF ++ s)
         ++ Buffer_from_utf8 (CRLF ++ b ++ CRLF) ++ post)%list.
Proof.
  intro I. apply in_split in I. destruct I as (l1 & l2 & ->).
  rewrite with_spec, concat_map_split.
  set (ty := match ImgObj.type img with
             | Some t => t
             | None => "application/octet-stream"
             end).
  destruct (parts_then b l2
              ("Content-Disposition: form-data; name=" ++ DQUOTE
               ++ "attachment" ++ DQUOTE ++ "; filename=" ++ DQUOTE
               ++ ImgObj.name img ++ DQUOTE ++ CRLF
               ++ "Content-Type: " ++ ty ++ CRLF ++ CRLF)) as [r E].
  exists (String.concat "" (map (spec_text_part b) l1)).
  exists (Buffer_from_utf8 r ++ ImgObj.data img
            ++ Buffer_from_utf8 (CRLF ++ b ++ "--" ++ CRLF))%list.
  rewrite !app_assoc. f_equal. f_equal. rewrite <- !utf8_app. f_equal.
  unfold spec_attachment_head, spec_text_part. cbn [fst snd].
  rewrite !append_assoc. rewrite ?append_assoc in E. rewrite <- E.
  reflexivity.
Qed.

(** Every part stands in a body without attachment: boundary line, header
    line, blank line and value; behind the value come a CRLF and the next
    boundary line, or, for the last part, the closing marker at once. *)
Lemma part_in_without (b k s : string) (parts : list (string * string)) :
  In (k, s) parts ->
  exists pre post,
    multipart_without b parts
    = (Buffer_from_utf8
         (pre ++ b ++ CRLF
          ++ "Content-Disposition: form-data; name=" ++ DQUOTE ++ k ++ DQUOTE
          ++ CRLF ++ CRLF ++ s)
         ++ post)%list
    /\ (post = Buffer_from_utf8 (b ++ "--" ++ CRLF)
        \/ exists post',
             post = (Buffer_from_utf8 (CRLF ++ b ++ CRLF) ++ post')%list).
Proof.
  intro I. apply in_split in I. destruct I as (l1 & l2 & ->).
  destruct l2 as [|z l2].
  - rewrite (without_snoc b l1 (k, s)), utf8_app. cbn [fst snd].
    eexists. eexists. split; [reflexivity | now left].
  - assert (NE : z :: l2 <> []) by discriminate.
    destruct (exists_last NE) as (l & y & E). rewrite E.
    replace (l1 ++ (k, s) :: l ++ [y])%list
      with ((l1 ++ (k, s) :: l) ++ [y])%list
      by (now rewrite <- app_assoc).
    rewrite without_snoc, concat_map_split.
    destruct (parts_then b l
                ("Content-Disposition: form-data; name=" ++ DQUOTE ++ fst y
                 ++ DQUOTE ++ CRLF ++ CRLF ++ snd y ++ b ++ "--" ++ CRLF))
      as [r Er].
    exists (String.concat "" (map (spec_text_part b) l1)).
    exists (Buffer_from_utf8 (CRLF ++ b ++ CRLF) ++ Buffer_from_utf8 r)%list.
    split; [|right; eexists; reflexivity].
    rewrite <- !utf8_app. f_equal.
    unfold spec_text_part. cbn [fst snd].
    rewrite !append_assoc. rewrite ?append_assoc in Er. rewrite <- Er.
    reflexivity.
Qed.

(** The payload [send] computes is the encoding of the request string
    with the resolved attachment. *)
Lemma encoded_body_resolve (self : Client.t) (obj : Obj.t mval) :
  encoded_body self obj
  = bind (resolve_attachment (mget obj "file"))
         (fun att => ret (reqString2MP (request_string self obj)
                                       (Client.boundary self) att)).
Proof.
  unfold encoded_body. now rewrite build_payload_resolve, setDefaults_file.
Qed.

(** The body of a request [send] hands over is the payload it computed. *)
Lemma send_payload (self : Client.t) (obj : Obj.t mval) (req : request) :
  result (send self obj) = Ret req ->
  result (encoded_body self obj) = Ret (payload req).
Proof.
  intro R. destruct (send_inv self obj req R) as (l & att & A & P & _).
  rewrite encoded_body_resolve, A, P. reflexivity.
Qed.

(** The payload by the three cases of the attachment. *)
Lemma encoded_body_cases (self : Client.t) (obj : Obj.t mval)
      (body : Buffer) :
  result (encoded_body self obj) = Ret body ->
  (exists img,
      falsy (mget obj "file") = false
      /\ body = multipart_with (Client.boundary self) (send_parts self obj)
                               img)
  \/ (falsy (mget obj "file") = true
      /\ body = multipart_without (Client.boundary self)
                                  (send_parts self obj)).
Proof.
  rewrite encoded_body_resolve. intro R.
  apply bind_Ret in R. destruct R as (l & att & A & R).
  injection R as <-.
  change (request_string self obj)
    with (Qs.stringify stringifyPrimitive
            (build_reqString self (setDefaults obj))).
  fold (send_parts self obj).
  destruct att as [img|].
  - left. exists img. split; [|apply reqString2MP_with].
    destruct (mget obj "file") as [|path|i]; cbn in A |- *;
      [discriminate A | | reflexivity].
    destruct path; [discriminate A | reflexivity].
  - right. split; [|apply reqString2MP_without].
    destruct (mget obj "file") as [|path|i]; cbn in A |- *;
      [reflexivity | | discriminate A].
    destruct path; [reflexivity|]. cbn in A.
    destruct (loadImage _) as [l' [i|e]]; discriminate A.
Qed.

Lemma distinct_NoDup (l : list string) : distinct l = true -> NoDup l.
Proof.
  induction l as [|x l IH]; cbn; intro D; constructor;
    apply andb_prop in D; destruct D as [D1 D2]; [|now apply IH].
  intro I. apply negb_true_iff in D1.
  assert (X : existsb (String.eqb x) l = true); [|congruence].
  apply existsb_exists. exists x. split; [exact I | apply String.eqb_refl].
Qed.




Lemma substring_whole (s : string) : substring 0 (String.length s) s = s.
Proof. induction s as [|c s IH]; cbn; [reflexivity | now rewrite IH]. Qed.

Lemma substring_from_dashes (tok : string) :
  substring_from 2 ("--" ++ tok) = tok.
Proof. unfold substring_from. cbn. rewrite Nat.sub_0_r. apply substring_whole. Qed.

(** C9, amended.  The constructor draws the boundary once, two dashes in
    front of the token, and the refresh leaves it alone.  For a client
    whose [httpOptions] carry neither [method] nor [headers], every
    request [send] issues has the method POST, a [Content-type] header
    naming that token, a [Content-Length] header equal to the number of
    bytes of the body, and a body delimited by the two dashes and the
    token; the request is issued whenever the attachment can be resolved
    and no proxy is configured. *)
Theorem C9_post_request (self : Client.t) (obj : Obj.t mval) (tok : string) :
  (forall opts random36,
      Client.boundary (Pushover opts random36)
      = "--" ++ substring_from 2 random36)
  /\ (forall s, Client.boundary (Client.with_sounds self s)
                = Client.boundary self)
  /\ (Client.boundary self = "--" ++ tok ->
      ~ In "method" (Obj.keys (httpOpts_of self)) ->
      ~ In "headers" (Obj.keys (httpOpts_of self)) ->
      forall req,
        result (send self obj) = Ret req ->
        Obj.get (options req) "method" = Some (OStr "POST")
        /\ (exists hs,
               Obj.get (options req) "headers" = Some (OObj hs)
               /\ Obj.get hs "Content-type"
                  = Some (OStr ("multipart/form-data; boundary=" ++ tok))
               /\ Obj.get hs "Content-Length"
                  = Some (ONum (List.length (payload req))))
        /\ (exists att,
               payload req
               = reqString2MP (request_string self obj) ("--" ++ tok) att))
  /\ (forall l att,
         resolve_attachment (mget obj "file") = (l, Ret att) ->
         proxy_given (httpOpts_of self) = false ->
         exists req, result (send self obj) = Ret req).
Proof.
  split; [reflexivity|]. split; [reflexivity|]. split.
  - intros B NM NH req R.
    destruct (send_inv self obj req R) as (l & att & _ & P & O).
    cbv zeta in O. rewrite <- B.
    set (o1 := Obj.set (Obj.set (url_parse pUrl) "method" (OStr "POST"))
                       "headers" (headers self (payload req))) in O.
    assert (M1 : Obj.get (copy_httpOptions (httpOpts_of self) o1) "method"
                 = Some (OStr "POST")).
    { rewrite copy_httpOptions_get by exact NM. subst o1.
      rewrite ObjFacts.get_set_other by discriminate.
      apply ObjFacts.get_set_same. }
    assert (H1 : Obj.get (copy_httpOptions (httpOpts_of self) o1) "headers"
                 = Some (headers self (payload req))).
    { rewrite copy_httpOptions_get by exact NH. subst o1.
      apply ObjFacts.get_set_same. }
    assert (CT : substring_from 2 (Client.boundary self) = tok).
    { rewrite B. apply substring_from_dashes. }
    split; [|split; [|now exists att]].
    + destruct (proxy_given (httpOpts_of self)).
      * destruct O as [l' A].
        now destruct (apply_proxy_keeps _ _ _ _ _ "Content-type" _ A M1 H1
                                        eq_refl ltac:(discriminate)).
      * now rewrite O.
    + destruct (proxy_given (httpOpts_of self)).
      * destruct O as [l' A].
        destruct (apply_proxy_keeps _ _ _ _ _ "Content-type" _ A M1 H1
                                    eq_refl ltac:(discriminate))
          as (_ & hs & Hh & Hct).
        destruct (apply_proxy_keeps _ _ _ _ _ "Content-Length" _ A M1 H1
                                    eq_refl ltac:(discriminate))
          as (_ & hs' & Hh' & Hcl).
        rewrite Hh in Hh'. injection Hh' as <-.
        exists hs. rewrite <- CT. now repeat split.
      * rewrite O, H1. unfold headers. eexists. split; [reflexivity|].
        rewrite CT. split; reflexivity.
  - intros l att R P. now apply (send_returns self obj l att).
Qed.

End SendClaims.

Lemma plain_wf : Obj.wf plain.
Proof.
  unfold Obj.wf. cbn. repeat constructor; cbn; intuition discriminate.
Qed.



(** C9, as stated, fails: the options of the client are copied over the
    request options, [method] and [headers] included, so a client built
    with [httpOptions = {method: 'GET'}] does not send a POST. *)
Lemma C9_method_overridden :
  exists req,
    result (send (H := Fragment.node) client_GET [("message", MStr "hi")])
    = Ret req
    /\ Obj.get (options req) "method" = Some (OStr "GET").
Proof. eexists. split; vm_compute; reflexivity. Qed.

Lemma C9_post_request_witness :
  Client.boundary client_proxy = "--" ++ "abc"
  /\ ~ In "method" (Obj.keys (httpOpts_of client_proxy))
  /\ ~ In "headers" (Obj.keys (httpOpts_of client_proxy))
  /\ exists req,
       result (send (H := Fragment.node) client_proxy hello) = Ret req
       /\ Obj.get (options req) "method" = Some (OStr "POST")
       /\ (exists hs,
              Obj.get (options req) "headers" = Some (OObj hs)
              /\ Obj.get hs "Content-type"
                 = Some (OStr ("multipart/form-data; boundary=" ++ "abc"))
              /\ Obj.get hs "Content-Length"
                 = Some (ONum (List.length (payload req))))
       /\ (exists att,
              payload req
              = reqString2MP (request_string client_proxy hello)
                             ("--" ++ "abc") att).
Proof.
  assert (NM : ~ In "method" (Obj.keys (httpOpts_of client_proxy)))
    by (cbn; intuition discriminate).
  assert (NH : ~ In "headers" (Obj.keys (httpOpts_of client_proxy)))
    by (cbn; intuition discriminate).
  split; [reflexivity|]. split; [exact NM|]. split; [exact NH|].
  eexists. split; [vm_compute; reflexivity|].
  apply (proj1 (proj2 (proj2 (C9_post_request (H := Fragment.node)
                                              client_proxy hello "abc")))
               eq_refl NM NH).
  vm_compute; reflexivity.
Defined.

(** * Further properties of the client module *)

(** ** setDefaults *)

Lemma set_same {V} (o : Obj.t V) (k : string) (v : V) :
  Obj.get o k = Some v -> Obj.set o k v = o.
Proof.
  induction o as [|[k' v'] o IH]; cbn; [discriminate|].
  destruct (String.eqb k' k) eqn:E.
  - apply String.eqb_eq in E. subst k'. intro S. now injection S as ->.
  - intro G. now rewrite IH.
Qed.

Lemma keys_set_present {V} (o : Obj.t V) (k : string) (v : V) :
  In k (Obj.keys o) -> Obj.keys (Obj.set o k v) = Obj.keys o.
Proof.
  unfold Obj.keys. induction o as [|[k' v'] o IH]; cbn; [tauto|].
  destruct (String.eqb k' k) eqn:E; cbn.
  - apply String.eqb_eq in E. now subst k'.
  - apply String.eqb_neq in E. intros [I|I]; [congruence | now rewrite IH].
Qed.

Lemma existsb_eqb_In (k : string) (l : list string) :
  existsb (String.eqb k) l = true <-> In k l.
Proof.
  rewrite existsb_exists. split.
  - intros (x & I & E). apply String.eqb_eq in E. now subst x.
  - intro I. exists k. split; [exact I | apply String.eqb_refl].
Qed.

(** X1.  [setDefaults] leaves every property alone except the recognized
    optional ones that are absent or falsy: these read as the empty string
    afterwards, so that none of the seven is absent or [undefined] once
    the function returned. *)
Theorem setDefaults_fills (o : Obj.t mval) (k : string) :
  (In k def -> falsy (mget o k) = true ->
   Obj.get (setDefaults o) k = Some (MStr ""))
  /\ (falsy (mget o k) = false -> Obj.get (setDefaults o) k = Obj.get o k)
  /\ (~ In k def -> Obj.get (setDefaults o) k = Obj.get o k)
  /\ (In k def -> mget (setDefaults o) k <> MUndef).
Proof.
  rewrite SendFacts.setDefaults_get. split; [|split; [|split]].
  - intros I F. apply existsb_eqb_In in I. now rewrite I, F.
  - intros F. now rewrite F, andb_false_r.
  - intros N. destruct (existsb (String.eqb k) def) eqn:E; [|reflexivity].
    apply existsb_eqb_In in E. contradiction.
  - intros I. unfold mget. rewrite SendFacts.setDefaults_get.
    apply existsb_eqb_In in I. rewrite I. cbn [andb].
    destruct (falsy (mget o k)) eqn:F; [discriminate|].
    unfold mget in F. destruct (Obj.get o k) as [v|]; [|discriminate F].
    destruct v; [discriminate F | discriminate | discriminate].
Qed.

Lemma setDefaults_fills_witness :
  Obj.get (setDefaults hello) "title" = Some (MStr "")
  /\ Obj.get (setDefaults hello) "url" = Some (MStr "")
  /\ Obj.get (setDefaults hello) "sound" = Some (MStr "bike")
  /\ Obj.get (setDefaults hello) "html" = None.
Proof.
  split; [|split; [|split]].
  - apply (proj1 (setDefaults_fills hello "title")); [cbn; tauto | reflexivity].
  - apply (proj1 (setDefaults_fills hello "url")); [cbn; tauto | reflexivity].
  - rewrite (proj1 (proj2 (setDefaults_fills hello "sound"))); reflexivity.
  - rewrite (proj1 (proj2 (proj2 (setDefaults_fills hello "html"))));
      [reflexivity | cbn; intuition discriminate].
Defined.

Lemma fill_fixed (o : Obj.t mval) (k : string) :
  In k def -> fill (setDefaults o) k = setDefaults o.
Proof.
  intro I. unfold fill. destruct (falsy (mget (setDefaults o) k)) eqn:F;
    [|reflexivity].
  apply set_same. pose proof (SendFacts.setDefaults_get o k) as G.
  apply existsb_eqb_In in I. rewrite I in G. cbn [andb] in G.
  destruct (falsy (mget o k)) eqn:F0; [exact G|].
  unfold mget in F. rewrite G in F. unfold mget in F0. congruence.
Qed.

(** X2.  [setDefaults] is idempotent: applied to a record it already
    filled it changes nothing, neither a value nor the order of the
    properties. *)
Theorem setDefaults_idempotent (o : Obj.t mval) :
  setDefaults (setDefaults o) = setDefaults o.
Proof.
  unfold setDefaults at 1.
  assert (G : forall l, (forall k, In k l -> In k def) ->
                        fold_left fill l (setDefaults o) = setDefaults o).
  { induction l as [|a l IH]; intro S; cbn [fold_left]; [reflexivity|].
    rewrite fill_fixed by (apply S; now left).
    apply IH. intros k I. apply S. now right. }
  apply G. tauto.
Qed.

Lemma keys_fill_fold (l : list string) (o : Obj.t mval) :
  NoDup l ->
  Obj.keys (fold_left fill l o)
  = (Obj.keys o
       ++ filter (fun k => negb (existsb (String.eqb k) (Obj.keys o))) l)%list.
Proof.
  revert o. induction l as [|a l IH]; intros o N; cbn [fold_left filter].
  - now rewrite app_nil_r.
  - inversion N as [|? ? Na Nl]; subst. rewrite (IH _ Nl).
    destruct (existsb (String.eqb a) (Obj.keys o)) eqn:E; cbn [negb].
    + apply existsb_eqb_In in E.
      assert (K : Obj.keys (fill o a) = Obj.keys o).
      { unfold fill. destruct (falsy (mget o a)); [|reflexivity].
        now apply keys_set_present. }
      now rewrite K.
    + assert (G : Obj.get o a = None).
      { apply ObjFacts.get_None. intro I. apply existsb_eqb_In in I.
        congruence. }
      assert (K : Obj.keys (fill o a) = (Obj.keys o ++ [a])%list).
      { unfold fill, mget. rewrite G. cbn [falsy].
        rewrite (ObjFacts.set_new _ _ _ G). unfold Obj.keys.
        now rewrite map_app. }
      rewrite K, <- app_assoc. cbn [app]. f_equal. f_equal.
      apply filter_ext_in. intros k I. f_equal.
      rewrite existsb_app. cbn [existsb].
      destruct (String.eqb k a) eqn:Eka.
      * apply String.eqb_eq in Eka. subst k. contradiction.
      * now rewrite orb_false_r.
Qed.

(** X3.  [setDefaults] keeps the properties of the record in their places
    and adds, behind them, the recognized optional fields the record did
    not have, in the order of the list [def]. *)
Theorem setDefaults_keys (o : Obj.t mval) :
  Obj.keys (setDefaults o) = (Obj.keys o ++ missing_defaults o)%list.
Proof.
  apply keys_fill_fold. unfold def.
  repeat constructor; cbn; intuition discriminate.
Qed.

(** ** The encoder *)

Lemma parts_start (b : string) (ps : list (string * string)) (t : string) :
  exists r, String.concat "" (map (text_part b) ps) ++ b ++ t = b ++ r.
Proof.
  destruct ps as [|p ps].
  - now exists t.
  - cbn [map]. rewrite concat_empty_cons. unfold text_part at 1.
    rewrite !append_assoc. eexists. reflexivity.
Qed.

(** X4.  Whatever the request string, the boundary and the attachment, the
    body [reqString2MP] returns starts with the boundary marker and ends
    with the boundary marker, [--] and CRLF. *)
Theorem reqString2MP_delimited (rs b : string) (imgObj : option ImgObj.t) :
  (exists rest, reqString2MP rs b imgObj = (Buffer_from_utf8 b ++ rest)%list)
  /\ (exists head,
         reqString2MP rs b imgObj
         = (head ++ Buffer_from_utf8 (b ++ "--" ++ CRLF))%list).
Proof.
  destruct imgObj as [img|].
  - rewrite reqString2MP_with. unfold multipart_with, framing, attachment_head.
    split.
    + destruct (parts_start b (text_parts rs)
                  (CRLF ++ attachment_disposition (ImgObj.name img) ++ CRLF
                   ++ "Content-Type: " ++ content_type (ImgObj.type img)
                   ++ CRLF ++ CRLF)) as [r E].
      rewrite E, utf8_app, <- app_assoc. eexists. reflexivity.
    + unfold closing. rewrite (utf8_app CRLF), !app_assoc.
      eexists. reflexivity.
  - rewrite reqString2MP_without. unfold multipart_without.
    destruct (text_parts rs) as [|p ps] eqn:E.
    + split; [rewrite utf8_app; eexists; reflexivity|].
      exists []. reflexivity.
    + set (parts := p :: ps). set (kv := last parts ("", "")). split.
      * destruct (parts_start b (removelast parts)
                    (CRLF ++ content_disposition (fst kv) ++ CRLF ++ CRLF
                     ++ snd kv ++ b ++ "--" ++ CRLF)) as [r Er].
        rewrite Er, utf8_app. eexists. reflexivity.
      * replace (String.concat "" (map (text_part b) (removelast parts))
                 ++ b ++ CRLF ++ content_disposition (fst kv) ++ CRLF ++ CRLF
                 ++ snd kv ++ b ++ "--" ++ CRLF)
          with ((String.concat "" (map (text_part b) (removelast parts))
                 ++ b ++ CRLF ++ content_disposition (fst kv) ++ CRLF ++ CRLF
                 ++ snd kv) ++ b ++ "--" ++ CRLF)
          by (rewrite !append_assoc; reflexivity).
        rewrite utf8_app. eexists. reflexivity.
Qed.

(** ** loadImage *)

Lemma take_segment_no_slash (l : list ascii) :
  ~ In "/"%char (Path.take_segment l).
Proof.
  induction l as [|c l IH]; cbn; [tauto|].
  destruct (Ascii.eqb c "/") eqn:E; cbn; [tauto|].
  apply Ascii.eqb_neq in E. intros [I|I]; [congruence | now apply IH].
Qed.

Lemma contains_In (c : ascii) (l : list ascii) :
  contains c (string_of_list_ascii l) = true -> In c l.
Proof.
  induction l as [|d l IH]; cbn; [discriminate|].
  intro C. apply orb_prop in C. destruct C as [C|C].
  - left. now apply Ascii.eqb_eq.
  - right. now apply IH.
Qed.

(** X5.  The attachment [loadImage] returns for a readable path carries
    the bytes of the file as they are, no [type], and a name without any
    path separator: no directory of the path reaches the [filename] of
    the part.  For an unreadable path it throws and calls nothing. *)
Theorem loadImage_name `{Platform} (imgPath : string) :
  match readFileSync imgPath with
  | Some bytes =>
      exists name,
        loadImage imgPath = ([], Ret (ImgObj.mk name bytes None))
        /\ contains "/" name = false
  | None => loadImage imgPath = ([], Throw (IOError imgPath))
  end.
Proof.
  unfold loadImage. destruct (readFileSync imgPath) as [bytes|];
    [|reflexivity].
  eexists. split; [reflexivity|].
  destruct (contains "/" (Path.basename imgPath)) eqn:C; [|reflexivity].
  exfalso. unfold Path.basename in C. apply contains_In in C.
  apply in_rev in C. now apply take_segment_no_slash in C.
Qed.

(** X6.  For a readable path made of a directory, a separator and a last
    segment, the attachment [loadImage] returns is named by that last
    segment. *)
Theorem loadImage_final_segment `{Platform} (dir name : string)
        (bytes : Buffer) :
  name <> "" -> contains "/" name = false ->
  readFileSync (dir ++ "/" ++ name) = Some bytes ->
  loadImage (dir ++ "/" ++ name) = ([], Ret (ImgObj.mk name bytes None)).
Proof.
  intros NE C R. unfold loadImage. rewrite R. unfold ret. repeat f_equal.
  unfold Path.basename. rewrite list_of_append. cbn [append list_ascii_of_string].
  rewrite rev_app_distr. cbn [rev]. rewrite <- app_assoc. cbn [app].
  assert (N : ~ In "/"%char (rev (list_ascii_of_string name))).
  { intro I. apply in_rev in I. now apply (no_slash_list name C). }
  assert (NN : rev (list_ascii_of_string name) <> []).
  { destruct name as [|c name]; [congruence|]. cbn.
    intro E. now apply app_eq_nil in E. }
  rewrite (drop_slashes_head _ NN N), (take_segment_app _ _ N).
  rewrite rev_involutive. apply string_of_list_ascii_of_string.
Qed.

Lemma loadImage_final_segment_witness :
  "pic.png" <> "" /\ contains "/" "pic.png" = false
  /\ loadImage (H := Fragment.node) ("/tmp" ++ "/" ++ "pic.png")
     = ([], Ret (ImgObj.mk "pic.png" [x89; x50]%byte None)).
Proof.
  split; [discriminate|]. split; [reflexivity|].
  apply (loadImage_final_segment (H := Fragment.node) "/tmp" "pic.png");
    [discriminate | reflexivity | reflexivity].
Defined.

(** ** The synchronous part of send, further *)

Section SendShape.
Context `{Platform}.

Lemma bind_bind_ret {A B C} (m : M A) (f : A -> B) (k : B -> M C) :
  bind (bind m (fun x => ret (f x))) k = bind m (fun x => k (f x)).
Proof.
  destruct m as [l [a|e]]; cbn; [|reflexivity].
  destruct (k (f a)) as [l' r]. now rewrite app_nil_r.
Qed.

Lemma proxy_choice (h : Obj.t oval) :
  otruthy (oget h "proxy") || pUrl_is_http = proxy_given h.
Proof.
  replace pUrl_is_http with false by reflexivity. rewrite orb_false_r.
  unfold oget, proxy_given. now destruct (Obj.get h "proxy").
Qed.

(** [send] step by step: resolve the attachment, encode, build the
    options, log, return. *)
Lemma send_unfold (self : Client.t) (obj : Obj.t mval) :
  send self obj
  = bind (resolve_attachment (mget obj "file"))
         (fun att =>
            let mp := reqString2MP (request_string self obj)
                                   (Client.boundary self) att in
            let o := copy_httpOptions
                       (httpOpts_of self)
                       (Obj.set (Obj.set (url_parse pUrl) "method" (OStr "POST"))
                                "headers" (headers self mp)) in
            bind (if proxy_given (httpOpts_of self)
                  then apply_proxy (httpOpts_of self) o else ret o)
                 (fun o' =>
                    bind (if Client.debug self
                          then emit (ConsoleLog
                                       (replace_first (Client.user self) "XXXXX"
                                          (replace_first (Client.token self)
                                             "XXXXX"
                                             (request_string self obj))))
                          else ret tt)
                         (fun _ =>
                            ret {| via := if proxy_given (httpOpts_of self)
                                          then Http else Https;
                                   options := o'; payload := mp |}))).
Proof.
  unfold send. rewrite build_payload_resolve, setDefaults_file.
  rewrite bind_bind_ret. rewrite proxy_choice. reflexivity.
Qed.

Lemma resolve_attachment_quiet (file : mval) :
  calls (resolve_attachment file) = [].
Proof.
  destruct file as [|path|img]; try reflexivity.
  destruct path as [|c path]; [reflexivity|].
  cbn [resolve_attachment is_empty]. unfold loadImage.
  now destruct (readFileSync (String c path)).
Qed.

Lemma apply_proxy_quiet (h o : Obj.t oval) : calls (apply_proxy h o) = [].
Proof.
  unfold apply_proxy. destruct (oget h "proxy"); try reflexivity.
  destruct (oget o "headers"); reflexivity.
Qed.

End SendShape.

Section SendFurther.
Context `{Platform}.

(** X7.  When [file] is a path that cannot be read, [send] throws the
    read error at once: nothing is logged, no option is built and no
    request is issued. *)
Theorem send_unreadable_file (self : Client.t) (obj : Obj.t mval)
        (path : string) :
  mget obj "file" = MStr path -> path <> "" -> readFileSync path = None ->
  send self obj = ([], Throw (IOError path)).
Proof.
  intros F N R. rewrite send_unfold, F.
  destruct path as [|c path]; [congruence|].
  cbn [resolve_attachment is_empty]. unfold loadImage. rewrite R. reflexivity.
Qed.

(** X8.  The synchronous part of [send] calls neither the completion
    handler nor [onerror]; without [debug] it makes no observable call at
    all. *)
Theorem send_calls_no_callback (self : Client.t) (obj : Obj.t mval) :
  fn_calls (calls (send self obj)) = []
  /\ onerror_calls (calls (send self obj)) = []
  /\ (Client.debug self = false -> calls (send self obj) = []).
Proof.
  rewrite send_unfold.
  pose proof (resolve_attachment_quiet (mget obj "file")) as Q.
  destruct (resolve_attachment (mget obj "file")) as [l [att|e]];
    unfold calls in Q; cbn [fst] in Q; subst l;
    [|split; [reflexivity | split; [reflexivity | reflexivity]]].
  cbv zeta. cbn [bind app].
  set (o := copy_httpOptions _ _).
  assert (P : exists r, (if proxy_given (httpOpts_of self)
                         then apply_proxy (httpOpts_of self) o else ret o)
                        = ([], r)).
  { destruct (proxy_given (httpOpts_of self)); [|eexists; reflexivity].
    pose proof (apply_proxy_quiet (httpOpts_of self) o) as A.
    destruct (apply_proxy (httpOpts_of self) o) as [l r].
    unfold calls in A; cbn [fst] in A; subst l. now exists r. }
  destruct P as [[o'|e] ->]; cbn [bind app];
    [|split; [reflexivity | split; [reflexivity | reflexivity]]].
  destruct (Client.debug self); cbn [bind emit ret app];
    split; try reflexivity; split; try reflexivity; discriminate.
Qed.

Lemma send_Ret_inv (self : Client.t) (obj : Obj.t mval) (req : request) :
  result (send self obj) = Ret req ->
  exists l att l' o',
    resolve_attachment (mget obj "file") = (l, Ret att)
    /\ (if proxy_given (httpOpts_of self)
        then apply_proxy
               (httpOpts_of self)
               (copy_httpOptions
                  (httpOpts_of self)
                  (Obj.set (Obj.set (url_parse pUrl) "method" (OStr "POST"))
                           "headers"
                           (headers self
                              (reqString2MP (request_string self obj)
                                            (Client.boundary self) att))))
        else ret (copy_httpOptions
                    (httpOpts_of self)
                    (Obj.set (Obj.set (url_parse pUrl) "method" (OStr "POST"))
                             "headers"
                             (headers self
                                (reqString2MP (request_string self obj)
                                              (Client.boundary self) att)))))
       = (l', Ret o')
    /\ req = {| via := if proxy_given (httpOpts_of self) then Http else Https;
                options := o';
                payload := reqString2MP (request_string self obj)
                                        (Client.boundary self) att |}.
Proof.
  rewrite send_unfold. intro R.
  apply bind_Ret in R. destruct R as (l & att & A & R). cbv zeta in R.
  apply bind_Ret in R. destruct R as (l' & o' & P & R).
  apply bind_Ret in R. destruct R as (l2 & u & _ & R).
  injection R as <-. now exists l, att, l', o'.
Qed.

(** X9.  A request goes through [https.request] unless a proxy is
    configured, and through [http.request] whenever one is, whatever the
    protocol of the proxy. *)
Theorem send_transport (self : Client.t) (obj : Obj.t mval) (req : request) :
  result (send self obj) = Ret req ->
  via req = if proxy_given (httpOpts_of self) then Http else Https.
Proof.
  intro R. destruct (send_Ret_inv self obj req R) as (l & att & l' & o' & _ & _ & ->).
  reflexivity.
Qed.

Lemma fold_copy_other (l o : Obj.t oval) (k : string) :
  ~ In k (Obj.keys l) ->
  Obj.get (fold_left (fun o0 kv =>
                        if negb (String.eqb (fst kv) "proxy")
                        then Obj.set o0 (fst kv) (snd kv) else o0) l o) k
  = Obj.get o k.
Proof.
  revert o. induction l as [|[k0 v0] l IH]; intros o N; cbn [fold_left fst snd];
    [reflexivity|].
  rewrite IH by (intro I; apply N; right; exact I).
  destruct (negb (String.eqb k0 "proxy")); [|reflexivity].
  apply ObjFacts.get_set_other. intro E. apply N. left. exact E.
Qed.

Lemma get_copy_httpOptions (h o : Obj.t oval) (k : string) (v : oval) :
  Obj.wf h -> Obj.get h k = Some v -> k <> "proxy" ->
  Obj.get (copy_httpOptions h o) k = Some v.
Proof.
  intros W G N. unfold copy_httpOptions.
  rewrite <- (SendFacts.get_for_in h k W) in G.
  apply ObjFacts.for_in_wf in W. revert o G W.
  generalize (Obj.for_in h) as l.
  induction l as [|[k0 v0] l IH]; intros o G W; cbn [fold_left fst snd];
    [discriminate G|].
  cbn [Obj.get] in G. inversion W as [|? ? N0 W']; subst.
  destruct (String.eqb k0 k) eqn:E.
  - apply String.eqb_eq in E. subst k0. injection G as ->.
    apply String.eqb_neq in N. rewrite N. cbn [negb].
    rewrite fold_copy_other by exact N0. apply ObjFacts.get_set_same.
  - apply IH; [exact G | exact W'].
Qed.

End SendFurther.

Section SendOptions.
Context `{Platform}.

Lemma base_options_get (self : Client.t) (mp : Buffer) (k : string) :
  ~ In k (Obj.keys (httpOpts_of self)) ->
  Obj.get (copy_httpOptions
             (httpOpts_of self)
             (Obj.set (Obj.set (url_parse pUrl) "method" (OStr "POST"))
                      "headers" (headers self mp))) k
  = Obj.get (Obj.set (Obj.set (url_parse pUrl) "method" (OStr "POST"))
                     "headers" (headers self mp)) k.
Proof. intro N. now apply copy_httpOptions_get. Qed.

(** X10.  With a proxy configured (and neither [headers] nor [host] among
    the options of the client) the request [send] hands to the transport
    is directed to the proxy: the transport is [http.request], [host] and
    [protocol] of the request options are the host name and the protocol
    of the proxy URL, whatever that protocol is, and the API host moves
    into the [Host] header. *)
Theorem send_through_proxy (self : Client.t) (obj : Obj.t mval) (p : string)
        (req : request) :
  Obj.get (httpOpts_of self) "proxy" = Some (OStr p) -> p <> "" ->
  ~ In "headers" (Obj.keys (httpOpts_of self)) ->
  ~ In "host" (Obj.keys (httpOpts_of self)) ->
  result (send self obj) = Ret req ->
  via req = Http
  /\ Obj.get (options req) "host" = Some (oget (url_parse p) "hostname")
  /\ Obj.get (options req) "protocol" = Some (oget (url_parse p) "protocol")
  /\ exists hs,
       Obj.get (options req) "headers" = Some (OObj hs)
       /\ Obj.get hs "Host" = Some (oget (url_parse pUrl) "host").
Proof.
  intros P NE NH NHost R.
  assert (PG : proxy_given (httpOpts_of self) = true).
  { unfold proxy_given. rewrite P. cbn. now destruct p. }
  assert (AP : forall mp,
             apply_proxy
               (httpOpts_of self)
               (copy_httpOptions
                  (httpOpts_of self)
                  (Obj.set (Obj.set (url_parse pUrl) "method" (OStr "POST"))
                           "headers" (headers self mp)))
             = ([], Ret (Obj.set
                           (Obj.set
                              (Obj.set
                                 (copy_httpOptions
                                    (httpOpts_of self)
                                    (Obj.set (Obj.set (url_parse pUrl) "method"
                                                      (OStr "POST"))
                                             "headers" (headers self mp)))
                                 "headers"
                                 (OObj [("Content-type",
                                         OStr ("multipart/form-data; boundary="
                                               ++ substring_from 2
                                                    (Client.boundary self)));
                                        ("Content-Length",
                                         ONum (List.length mp));
                                        ("Host", oget (url_parse pUrl) "host")]))
                              "host" (oget (url_parse p) "hostname"))
                           "protocol" (oget (url_parse p) "protocol")))).
  { intro mp. unfold apply_proxy. unfold oget at 1. rewrite P.
    unfold oget at 1. rewrite (base_options_get self mp "headers" NH).
    rewrite ObjFacts.get_set_same. unfold headers at 1.
    unfold oget at 1. rewrite (base_options_get self mp "host" NHost).
    rewrite !ObjFacts.get_set_other by discriminate.
    reflexivity. }
  destruct (send_Ret_inv self obj req R) as (l & att & l' & o' & _ & O & ->).
  rewrite PG in O |- *. rewrite AP in O. injection O as _ <-.
  cbn [via options]. split; [reflexivity|]. split; [|split].
  - rewrite ObjFacts.get_set_other by discriminate.
    apply ObjFacts.get_set_same.
  - apply ObjFacts.get_set_same.
  - rewrite !ObjFacts.get_set_other by discriminate.
    rewrite ObjFacts.get_set_same. eexists. split; reflexivity.
Qed.

(** X11.  Every option of the client other than [proxy] is handed to the
    transport as it stands (with a proxy configured: other than [host],
    [protocol] and [headers] too), so an option named like one [send]
    sets itself replaces it. *)
Theorem send_passes_httpOptions (self : Client.t) (obj : Obj.t mval)
        (k : string) (v : oval) (req : request) :
  Obj.wf (httpOpts_of self) ->
  Obj.get (httpOpts_of self) k = Some v -> k <> "proxy" ->
  proxy_given (httpOpts_of self) = false
  \/ (k <> "host" /\ k <> "protocol" /\ k <> "headers") ->
  result (send self obj) = Ret req ->
  Obj.get (options req) k = Some v.
Proof.
  intros W G N C R.
  destruct (send_Ret_inv self obj req R) as (l & att & l' & o' & _ & O & ->).
  cbn [options].
  set (o := copy_httpOptions _ _) in O.
  assert (Go : Obj.get o k = Some v) by now apply get_copy_httpOptions.
  destruct (proxy_given (httpOpts_of self)) eqn:PG.
  - destruct C as [C|(C1 & C2 & C3)]; [discriminate C|].
    unfold apply_proxy in O. destruct (oget (httpOpts_of self) "proxy");
      try discriminate O.
    destruct (oget o "headers"); try discriminate O;
      injection O as _ <-;
      rewrite !ObjFacts.get_set_other by congruence; exact Go.
  - now injection O as _ <-.
Qed.

End SendOptions.

Lemma send_unreadable_file_witness :
  mget lost "file" = MStr "/nowhere.png"
  /\ send (H := Fragment.node) client_T lost
     = ([], Throw (IOError "/nowhere.png")).
Proof.
  split; [reflexivity|].
  apply (send_unreadable_file (H := Fragment.node) client_T lost "/nowhere.png");
    [reflexivity | discriminate | reflexivity].
Defined.

Lemma send_transport_witness :
  exists req req',
    result (send (H := Fragment.node) client_proxy hello) = Ret req
    /\ via req = Http
    /\ result (send (H := Fragment.node) client_T hello) = Ret req'
    /\ via req' = Https.
Proof.
  eexists. eexists. split; [vm_compute; reflexivity|].
  split; [|split; [vm_compute; reflexivity|]].
  - etransitivity;
      [apply (send_transport (H := Fragment.node) client_proxy hello);
       vm_compute; reflexivity | reflexivity].
  - etransitivity;
      [apply (send_transport (H := Fragment.node) client_T hello);
       vm_compute; reflexivity | reflexivity].
Defined.

Lemma send_through_proxy_witness :
  exists req,
    result (send (H := Fragment.node) client_proxy hello) = Ret req
    /\ via req = Http
    /\ Obj.get (options req) "host" = Some (OStr "proxy.local")
    /\ Obj.get (options req) "protocol" = Some (OStr "http:")
    /\ exists hs,
         Obj.get (options req) "headers" = Some (OObj hs)
         /\ Obj.get hs "Host" = Some (OStr "api.pushover.net").
Proof.
  eexists. split; [vm_compute; reflexivity|].
  apply (send_through_proxy (H := Fragment.node) client_proxy hello
                            "http://proxy.local:8080" _
                            eq_refl ltac:(discriminate)
                            ltac:(cbn; intuition discriminate)
                            ltac:(cbn; intuition discriminate)).
  vm_compute; reflexivity.
Defined.

Lemma client_proxy_wf : Obj.wf (httpOpts_of client_proxy).
Proof. unfold Obj.wf. cbn. repeat constructor; cbn; intuition discriminate. Qed.

Lemma send_passes_httpOptions_witness :
  exists req,
    result (send (H := Fragment.node) client_proxy hello) = Ret req
    /\ Obj.get (options req) "timeout" = Some (ONum 1000).
Proof.
  eexists. split; [vm_compute; reflexivity|].
  apply (send_passes_httpOptions (H := Fragment.node) client_proxy hello
                                 "timeout" (ONum 1000) _ client_proxy_wf);
    [reflexivity | discriminate
     | right; repeat split; discriminate | vm_compute; reflexivity].
Defined.

(** ** Enumeration order, further *)

Section ForIn.
Context {V : Type}.
Implicit Types (o : Obj.t V).

Lemma insert_sorted (x : N * (string * V)) l :
  Sorted by_index l -> Sorted by_index (Obj.insert_by_index x l).
Proof.
  induction l as [|y l IH]; intro S; cbn.
  - repeat constructor.
  - destruct (N.leb (fst x) (fst y)) eqn:E.
    + constructor; [exact S|]. constructor. now apply N.leb_le.
    + apply N.leb_gt in E. inversion S as [|? ? S' Hd]; subst.
      constructor; [now apply IH|].
      destruct l as [|z l]; cbn.
      * constructor. unfold by_index. lia.
      * destruct (N.leb (fst x) (fst z)); constructor.
        -- unfold by_index. lia.
        -- now inversion Hd.
Qed.

Lemma index_props_sorted o : Sorted by_index (Obj.index_props o).
Proof.
  unfold Obj.index_props. induction (flat_map Obj.tag_index o) as [|x l IH];
    cbn; [constructor | now apply insert_sorted].
Qed.

Lemma sort_sorted (l : list (N * (string * V))) :
  Sorted by_index l -> fold_right Obj.insert_by_index [] l = l.
Proof.
  induction l as [|x l IH]; intro S; cbn; [reflexivity|].
  inversion S as [|? ? S' Hd]; subst. rewrite (IH S').
  destruct l as [|y l]; cbn; [reflexivity|].
  inversion Hd as [|? ? R]; subst. unfold by_index in R.
  apply N.leb_le in R. now rewrite R.
Qed.

Lemma index_props_tagged o : Forall tagged (Obj.index_props o).
Proof.
  unfold Obj.index_props.
  assert (T : Forall tagged (flat_map Obj.tag_index o)).
  { induction o as [|kv o IH]; cbn; [constructor|].
    apply Forall_app. split; [|exact IH].
    unfold Obj.tag_index. destruct (Obj.array_index (fst kv)) eqn:E;
      repeat constructor. exact E. }
  revert T. induction (flat_map Obj.tag_index o) as [|x l IH]; intro T; cbn;
    [constructor|].
  inversion T as [|? ? Tx Tl]; subst.
  eapply Permutation_Forall;
    [symmetry; apply ObjFacts.insert_by_index_perm|].
  constructor; [exact Tx | now apply IH].
Qed.

Lemma tag_tagged (l : list (N * (string * V))) :
  Forall tagged l -> flat_map Obj.tag_index (map snd l) = l.
Proof.
  induction 1 as [|[n kv] l T _ IH]; cbn; [reflexivity|].
  unfold tagged in T. cbn in T. unfold Obj.tag_index at 1. rewrite T. cbn.
  now rewrite IH.
Qed.

Lemma named_tagged (l : list (N * (string * V))) :
  Forall tagged l -> Obj.named_props (map snd l) = [].
Proof.
  induction 1 as [|[n kv] l T _ IH]; cbn; [reflexivity|].
  unfold tagged in T. cbn in T. rewrite T. exact IH.
Qed.

Lemma tag_named o : flat_map Obj.tag_index (Obj.named_props o) = [].
Proof.
  unfold Obj.named_props. induction o as [|kv o IH]; cbn; [reflexivity|].
  destruct (Obj.array_index (fst kv)) eqn:E; [exact IH|].
  cbn. unfold Obj.tag_index at 1. now rewrite E.
Qed.

Lemma named_named o : Obj.named_props (Obj.named_props o) = Obj.named_props o.
Proof.
  unfold Obj.named_props. induction o as [|kv o IH]; cbn; [reflexivity|].
  destruct (Obj.array_index (fst kv)) eqn:E; [exact IH|].
  cbn. now rewrite E, IH.
Qed.

(** Enumerating in [for ... in] order is stable: an object whose
    properties already stand in that order enumerates as it stands. *)
Lemma for_in_idempotent o : Obj.for_in (Obj.for_in o) = Obj.for_in o.
Proof.
  assert (I : Obj.index_props (Obj.for_in o) = Obj.index_props o).
  { unfold Obj.index_props at 1. unfold Obj.for_in.
    rewrite flat_map_app, tag_tagged by apply index_props_tagged.
    rewrite tag_named, app_nil_r. apply sort_sorted, index_props_sorted. }
  assert (Nm : Obj.named_props (Obj.for_in o) = Obj.named_props o).
  { unfold Obj.for_in, Obj.named_props at 1. rewrite filter_app.
    fold (Obj.named_props (map snd (Obj.index_props o))).
    fold (Obj.named_props (Obj.named_props o)).
    now rewrite named_tagged, named_named by apply index_props_tagged. }
  unfold Obj.for_in at 1. now rewrite I, Nm.
Qed.

Lemma Sorted_firstn (n : nat) (l : list (N * (string * V))) :
  Sorted by_index l -> Sorted by_index (firstn n l).
Proof.
  revert l. induction n as [|n IH]; intros l S; [constructor|].
  destruct l as [|x l]; [constructor|].
  inversion S as [|? ? S' Hd]; subst. cbn [firstn].
  constructor; [now apply IH|].
  destruct n; [constructor|].
  destruct l as [|y l]; [constructor|].
  cbn [firstn]. constructor. now inversion Hd.
Qed.

Lemma Forall_firstn {A} (P : A -> Prop) (n : nat) (l : list A) :
  Forall P l -> Forall P (firstn n l).
Proof.
  intro F. rewrite <- (firstn_skipn n l) in F.
  now apply Forall_app in F.
Qed.

Lemma named_props_named o :
  Forall (fun kv => Obj.array_index (fst kv) = None) (Obj.named_props o).
Proof.
  apply Forall_forall. intros kv I. unfold Obj.named_props in I.
  apply filter_In in I. destruct I as [_ E].
  now destruct (Obj.array_index (fst kv)).
Qed.

(** Array-index properties in ascending order, then properties with
    other names: a list of this shape enumerates as it stands. *)
Lemma for_in_ordered (ti : list (N * (string * V))) (nm : Obj.t V) :
  Forall tagged ti -> Sorted by_index ti ->
  Forall (fun kv => Obj.array_index (fst kv) = None) nm ->
  Obj.for_in (map snd ti ++ nm)%list = (map snd ti ++ nm)%list.
Proof.
  intros T S Nm.
  assert (Tn : flat_map Obj.tag_index nm = []).
  { clear T S. induction Nm as [|kv nm E _ IH]; cbn; [reflexivity|].
    unfold Obj.tag_index at 1. now rewrite E. }
  assert (Fn : Obj.named_props nm = nm).
  { clear T S Tn. unfold Obj.named_props.
    induction Nm as [|kv nm E _ IH]; cbn; [reflexivity|]. now rewrite E, IH. }
  unfold Obj.for_in. f_equal.
  - f_equal. unfold Obj.index_props.
    rewrite flat_map_app, (tag_tagged _ T), Tn, app_nil_r.
    now apply sort_sorted.
  - unfold Obj.named_props at 1. rewrite filter_app.
    fold (Obj.named_props (map snd ti)). fold (Obj.named_props nm).
    now rewrite (named_tagged _ T), Fn.
Qed.

(** The first properties of an enumeration enumerate as they stand. *)
Lemma for_in_firstn o (n : nat) :
  Obj.for_in (firstn n (Obj.for_in o)) = firstn n (Obj.for_in o).
Proof.
  unfold Obj.for_in at 2 3. rewrite firstn_app, firstn_map.
  apply for_in_ordered.
  - apply Forall_firstn, index_props_tagged.
  - apply Sorted_firstn, index_props_sorted.
  - apply Forall_firstn, named_props_named.
Qed.

End ForIn.

Section ForInMap.
Context {V W : Type} (h : string * V -> string * W).
Hypothesis h_key : forall kv, fst (h kv) = fst kv.

Lemma insert_map (x : N * (string * V)) l :
  Obj.insert_by_index (fst x, h (snd x))
                      (map (fun y => (fst y, h (snd y))) l)
  = map (fun y => (fst y, h (snd y))) (Obj.insert_by_index x l).
Proof.
  induction l as [|y l IH]; cbn; [reflexivity|].
  destruct (N.leb (fst x) (fst y)); cbn; [reflexivity | now rewrite IH].
Qed.

(** A map that keeps the keys commutes with the enumeration. *)
Lemma for_in_map (o : Obj.t V) : Obj.for_in (map h o) = map h (Obj.for_in o).
Proof.
  unfold Obj.for_in. rewrite map_app. f_equal.
  - rewrite map_map.
    assert (I : Obj.index_props (map h o)
                = map (fun y => (fst y, h (snd y))) (Obj.index_props o)).
    { unfold Obj.index_props.
      assert (T : flat_map Obj.tag_index (map h o)
                  = map (fun y => (fst y, h (snd y)))
                        (flat_map Obj.tag_index o)).
      { induction o as [|kv o IH]; cbn; [reflexivity|].
        rewrite map_app, IH. f_equal. unfold Obj.tag_index.
        rewrite h_key. now destruct (Obj.array_index (fst kv)). }
      rewrite T. clear T.
      induction (flat_map Obj.tag_index o) as [|x l IH];
        cbn [fold_right map]; [reflexivity|].
      rewrite IH. apply insert_map. }
    rewrite I, map_map. reflexivity.
  - unfold Obj.named_props. induction o as [|kv o IH]; cbn; [reflexivity|].
    rewrite h_key. destruct (Obj.array_index (fst kv)); cbn; now rewrite IH.
Qed.

End ForInMap.

(** ** The parts sent, further *)

Lemma filter_map_comm {A B} (f : A -> B) (g : B -> bool) (l : list A) :
  filter g (map f l) = map f (filter (fun x => g (f x)) l).
Proof.
  induction l as [|x l IH]; cbn; [reflexivity|].
  destruct (g (f x)); cbn; now rewrite IH.
Qed.

(** What the encoder reads of a request map: of its first [Qs.maxKeys]
    entries, those with a non-empty string form. *)
Lemma text_parts_stringify (m : Obj.t mval) :
  Obj.wf m ->
  text_parts (Qs.stringify stringifyPrimitive m)
  = map (fun kv => (fst kv, stringifyPrimitive (snd kv)))
        (filter (fun kv => negb (is_empty (stringifyPrimitive (snd kv))))
                (firstn Qs.maxKeys (Obj.for_in m))).
Proof.
  intro W. unfold text_parts.
  rewrite (QsFacts.parse_stringify _ _ W).
  rewrite for_in_map by reflexivity. rewrite for_in_firstn.
  rewrite filter_map_comm, map_map. reflexivity.
Qed.

(** X12.  The parts [send] encodes are, one for one and in the same
    order, the entries with a non-empty string form among the first
    [Qs.maxKeys] entries of the request map, as [for ... in] enumerates
    them: between [send] and the encoder nothing is added or reordered,
    and nothing is lost of a request map within the limit of the parser. *)
Theorem send_parts_exact (self : Client.t) (obj : Obj.t mval) :
  send_parts self obj
  = map (fun kv => (fst kv, stringifyPrimitive (snd kv)))
        (filter (fun kv => negb (is_empty (stringifyPrimitive (snd kv))))
                (firstn Qs.maxKeys
                        (Obj.for_in (build_reqString self (setDefaults obj)))))
  /\ ((List.length (build_reqString self (setDefaults obj)) <= Qs.maxKeys)%nat ->
      send_parts self obj = map_parts (build_reqString self (setDefaults obj))).
Proof.
  assert (E : send_parts self obj
              = map (fun kv => (fst kv, stringifyPrimitive (snd kv)))
                    (filter (fun kv => negb (is_empty (stringifyPrimitive
                                                         (snd kv))))
                            (firstn Qs.maxKeys
                                    (Obj.for_in
                                       (build_reqString self
                                                        (setDefaults obj)))))).
  { unfold send_parts, text_parts.
    rewrite (QsFacts.parse_stringify _ _ (SendFacts.build_reqString_wf _ _)).
    rewrite for_in_map by reflexivity. rewrite for_in_firstn.
    rewrite filter_map_comm, map_map. reflexivity. }
  split; [exact E|].
  intro L. rewrite E. unfold map_parts. rewrite firstn_all2; [reflexivity|].
  now rewrite (Permutation_length (ObjFacts.for_in_perm _)).
Qed.

Lemma send_parts_exact_witness :
  (List.length (build_reqString client_T (setDefaults plain)) <= Qs.maxKeys)%nat
  /\ send_parts client_T plain
     = map_parts (build_reqString client_T (setDefaults plain)).
Proof.
  assert (L : (List.length (build_reqString client_T (setDefaults plain))
               <= Qs.maxKeys)%nat) by (vm_compute; lia).
  split; [exact L|]. exact (proj2 (send_parts_exact client_T plain) L).
Defined.

Lemma NoDup_map_filter {A B} (f : A -> B) (g : A -> bool) (l : list A) :
  NoDup (map f l) -> NoDup (map f (filter g l)).
Proof.
  induction l as [|x l IH]; cbn; intro N; [constructor|].
  inversion N as [|? ? Nx Nl]; subst.
  destruct (g x); cbn; [|now apply IH].
  constructor; [|now apply IH].
  intro I. apply Nx. apply in_map_iff in I. destruct I as (y & E & I).
  apply filter_In in I. rewrite <- E. apply in_map. tauto.
Qed.

(** X13.  No two parts of a request carry the same name: a per-call
    [token] or [user] replaces the stored credential instead of being sent
    beside it. *)
Theorem send_parts_distinct (self : Client.t) (obj : Obj.t mval) :
  NoDup (map fst (send_parts self obj)).
Proof.
  unfold send_parts.
  rewrite text_parts_stringify by apply SendFacts.build_reqString_wf.
  rewrite map_map. cbn [fst].
  apply NoDup_map_filter. rewrite <- firstn_map.
  apply QsFacts.NoDup_firstn.
  apply (ObjFacts.for_in_wf _ (SendFacts.build_reqString_wf self _)).
Qed.

(** X14.  [send] transmits nothing it was not given: every part is a
    field of the message set to that very string, or the stored token or
    user under its own name; [file] is never a text part. *)
Theorem send_parts_origin (self : Client.t) (obj : Obj.t mval)
        (k s : string) :
  Obj.wf obj ->
  In (k, s) (send_parts self obj) ->
  k <> "file"
  /\ (Obj.get obj k = Some (MStr s)
      \/ (k = "token" /\ s = Client.token self)
      \/ (k = "user" /\ s = Client.user self)).
Proof.
  intros W I. apply SendFacts.send_parts_In in I.
  destruct I as (v & G & E & NE).
  rewrite SendFacts.build_reqString_get in G
    by now apply SendFacts.setDefaults_wf.
  assert (B : Obj.get (base self (setDefaults obj)) k = Some v ->
              k <> "file"
              /\ ((k = "token" /\ s = Client.token self)
                  \/ (k = "user" /\ s = Client.user self)
                  \/ Obj.get obj k = Some (MStr s))).
  { unfold base. cbn [Obj.get].
    destruct (String.eqb "token" k) eqn:Et.
    - apply String.eqb_eq in Et. subst k. intro Ev. injection Ev as <-.
      split; [discriminate|]. unfold credential in E.
      destruct (is_empty (Client.token self)) eqn:Em; [|left; now split].
      right. right. unfold mget in E.
      rewrite SendFacts.setDefaults_get in E. cbn [existsb def] in E.
      cbn in E. destruct (Obj.get obj "token") as [[|t|i]|];
        cbn in E; subst s; congruence.
    - destruct (String.eqb "user" k) eqn:Eu; [|discriminate].
      apply String.eqb_eq in Eu. subst k. intro Ev. injection Ev as <-.
      split; [discriminate|]. unfold credential in E.
      destruct (is_empty (Client.user self)) eqn:Em;
        [|right; left; now split].
      right. right. unfold mget in E.
      rewrite SendFacts.setDefaults_get in E. cbn [existsb def] in E.
      cbn in E. destruct (Obj.get obj "user") as [[|t|i]|];
        cbn in E; subst s; congruence. }
  assert (B' : Obj.get (base self (setDefaults obj)) k = Some v ->
               k <> "file"
               /\ (Obj.get obj k = Some (MStr s)
                   \/ (k = "token" /\ s = Client.token self)
                   \/ (k = "user" /\ s = Client.user self))).
  { intro Gb. destruct (B Gb) as [F [X|[X|X]]]; tauto. }
  destruct (Obj.get (setDefaults obj) k) as [v'|] eqn:G'; [|now apply B'].
  destruct (not_empty_string v' && negb (String.eqb k "file")) eqn:C;
    [|now apply B'].
  injection G as ->. apply andb_prop in C. destruct C as [C1 C2].
  split.
  - intro F. subst k. discriminate C2.
  - left. destruct v as [|t|i]; cbn in E; subst s; try congruence.
    rewrite SendFacts.setDefaults_get in G'.
    destruct (existsb (String.eqb k) def && falsy (mget obj k));
      [injection G' as <-; congruence | exact G'].
Qed.

Lemma send_parts_origin_witness :
  Obj.wf hello
  /\ In ("token", "T2") (send_parts client_T hello)
  /\ "token" <> "file"
  /\ (Obj.get hello "token" = Some (MStr "T2")
      \/ ("token" = "token" /\ "T2" = Client.token client_T)
      \/ ("token" = "user" /\ "T2" = Client.user client_T)).
Proof.
  assert (I : In ("token", "T2") (send_parts client_T hello))
    by (vm_compute; tauto).
  split; [exact hello_wf|]. split; [exact I|].
  exact (send_parts_origin client_T hello "token" "T2" hello_wf I).
Defined.

(** ** The error path, further *)

Section ErrorsFurther.
Context `{Platform}.

(** [errors] in two steps: the parse, then the check of the member. *)
Lemma errors_parsed (self : Client.t) (d : jsval) (res : option response) :
  errors self d res
  = bind (match d with
          | JStr s =>
              match JSON_parse s with
              | Some v => ret v
              | None =>
                  bind (call_onerror self (EThrown (SyntaxError s)) res)
                       (fun _ => ret d)
              end
          | _ => ret d
          end)
         (fun d' =>
            bind (get_member d' "errors")
                 (fun e =>
                    if truthy e
                    then bind (get_member e "0")
                              (fun e0 =>
                                 if Client.onerror self
                                 then emit (Onerror (EVal e0) res)
                                 else throw (ErrorOf e0))
                    else ret tt)).
Proof. reflexivity. Qed.

Lemma get_member_ret (v : jsval) (k : string) :
  nullish v = false -> exists x, get_member v k = ret x.
Proof. destruct v; try discriminate; intros _; eexists; reflexivity. Qed.

Lemma check_handled (self : Client.t) (d : jsval) (res : option response) :
  Client.onerror self = true -> nullish d = false ->
  exists l,
    bind (get_member d "errors")
         (fun e =>
            if truthy e
            then bind (get_member e "0")
                      (fun e0 =>
                         if Client.onerror self
                         then emit (Onerror (EVal e0) res)
                         else throw (ErrorOf e0))
            else ret tt)
    = (l, Ret tt)
    /\ (l = [] \/ exists a, l = [Onerror a res])
    /\ (forall e, get_member d "errors" = ret e -> truthy e = false -> l = []).
Proof.
  intros O N. destruct (get_member_ret d "errors" N) as [e ->].
  rewrite O. cbn [bind ret app]. destruct (truthy e) eqn:T.
  - assert (Ne : nullish e = false) by (destruct e; try reflexivity; discriminate T).
    destruct (get_member_ret e "0" Ne) as [e0 ->]. cbn [bind ret emit app].
    eexists. split; [reflexivity|]. split; [right; eexists; reflexivity|].
    intros e' E' T'. injection E' as <-. congruence.
  - exists []. split; [reflexivity|]. split; [now left | reflexivity].
Qed.

(** X15.  With an [onerror] handler configured, [errors] returns normally
    and calls the handler at most once, whatever it is given, except when
    the value it inspects is [null] or [undefined]. *)
Theorem errors_handled (self : Client.t) (d : jsval) (res : option response) :
  Client.onerror self = true -> nullish (parsed d) = false ->
  result (errors self d res) = Ret tt
  /\ (calls (errors self d res) = []
      \/ exists a, calls (errors self d res) = [Onerror a res]).
Proof.
  intros O N. rewrite errors_parsed. unfold parsed in N.
  destruct d as [| |b|x|s|l|props];
    try (destruct (check_handled self _ res O N) as (l0 & E & C & _);
         cbn [bind ret]; rewrite E; cbn [app result calls fst snd];
         split; [reflexivity | exact C]).
  destruct (JSON_parse s) as [v|].
  - destruct (check_handled self v res O N) as (l0 & E & C & _).
    cbn [bind ret]. rewrite E. cbn [app result calls fst snd].
    split; [reflexivity | exact C].
  - unfold call_onerror. rewrite O. cbn. split; [reflexivity|].
    right. eexists. reflexivity.
Qed.

(** X16.  When the value [errors] inspects is [null] or [undefined] (a
    response whose text is the JSON [null]), [errors] throws a TypeError
    without calling any handler, configured or not. *)
Theorem errors_nullish (self : Client.t) (d : jsval) (res : option response) :
  nullish (parsed d) = true ->
  exists m, errors self d res = ([], Throw (TypeError m)).
Proof.
  intro N. rewrite errors_parsed. unfold parsed in N.
  destruct d as [| |b|x|s|l|props]; try discriminate N;
    try (eexists; reflexivity).
  destruct (JSON_parse s) as [v|]; [|discriminate N].
  destruct v; try discriminate N; eexists; reflexivity.
Qed.

(** X17.  An error of the refresh request whose error value is an object
    (not a string, not [null]) without a truthy [errors] member is
    dropped: no handler is called, nothing is thrown, the client stays as
    it is. *)
Theorem updateSounds_error_dropped (self : Client.t) (e m : jsval) :
  (forall s, e <> JStr s) -> nullish e = false ->
  get_member e "errors" = ret m -> truthy m = false ->
  updateSounds_error self e = ([], Ret self).
Proof.
  intros NS N G T. unfold updateSounds_error. rewrite errors_parsed.
  assert (P : match e with
              | JStr s =>
                  match JSON_parse s with
                  | Some v => ret v
                  | None =>
                      bind (call_onerror self (EThrown (SyntaxError s)) None)
                           (fun _ => ret e)
                  end
              | _ => ret e
              end = ret e).
  { destruct e; try reflexivity. exfalso. now apply (NS s). }
  rewrite P. cbn [bind ret]. rewrite G. cbn [bind ret]. rewrite T. reflexivity.
Qed.

End ErrorsFurther.

Lemma errors_handled_witness :
  result (errors (H := Fragment.node) handled_client (JStr invalid_token_body)
                 (Some r400)) = Ret tt
  /\ (calls (errors (H := Fragment.node) handled_client
                    (JStr invalid_token_body) (Some r400)) = []
      \/ exists a,
           calls (errors (H := Fragment.node) handled_client
                         (JStr invalid_token_body) (Some r400))
           = [Onerror a (Some r400)]).
Proof.
  apply (errors_handled (H := Fragment.node) handled_client
                        (JStr invalid_token_body) (Some r400));
    reflexivity.
Defined.

Lemma errors_nullish_witness :
  exists m,
    errors (H := Fragment.node) handled_client (JStr "null") (Some r200)
    = ([], Throw (TypeError m)).
Proof.
  apply (errors_nullish (H := Fragment.node) handled_client (JStr "null")
                        (Some r200)).
  reflexivity.
Defined.

Lemma updateSounds_error_dropped_witness :
  updateSounds_error (H := Fragment.node) handled_client econnrefused
  = ([], Ret handled_client).
Proof.
  apply (updateSounds_error_dropped (H := Fragment.node) handled_client
                                    econnrefused JUndefined);
    [discriminate | reflexivity | reflexivity | reflexivity].
Defined.

(** ** The sound-table refresh, further *)

Section RefreshFurther.
Context `{Platform}.

Lemma with_sounds_settings (self : Client.t) (s : jsval) :
  same_settings self (Client.with_sounds self s).
Proof. unfold same_settings. cbn. tauto. Qed.

Lemma same_settings_refl (self : Client.t) : same_settings self self.
Proof. unfold same_settings. tauto. Qed.

Lemma same_settings_trans (a b c : Client.t) :
  same_settings a b -> same_settings b c -> same_settings a c.
Proof. unfold same_settings. intuition congruence. Qed.

(** What the [catch] block of the [end] listener does, given that the
    text it passes to [errors] is not JSON. *)
Lemma refresh_report (self : Client.t) (res : option response) :
  JSON_parse "Pushover: parsing sound data failed" = None ->
  bind (errors self (JStr "Pushover: parsing sound data failed") res)
       (fun _ => ret self)
  = if Client.onerror self
    then ([Onerror (EThrown (SyntaxError "Pushover: parsing sound data failed"))
                   res], Ret self)
    else ([], Throw (TypeError "this.onerror is not a function")).
Proof.
  intro P. rewrite errors_parsed, P. unfold call_onerror.
  destruct (Client.onerror self); reflexivity.
Qed.

(** X18.  When the refresh response is not JSON, the handler does not
    receive the message [Pushover: parsing sound data failed]: that text
    is itself parsed as a response, so a configured handler is called once
    with the syntax error of the message and a client without handler
    throws the TypeError of calling [undefined]; the table stays. *)
Theorem updateSounds_end_unparsable (self : Client.t) (data : string)
        (res : option response) :
  JSON_parse "Pushover: parsing sound data failed" = None ->
  JSON_parse data = None ->
  updateSounds_end self data res
  = if Client.onerror self
    then ([Onerror (EThrown (SyntaxError "Pushover: parsing sound data failed"))
                   res], Ret self)
    else ([], Throw (TypeError "this.onerror is not a function")).
Proof.
  intros P D. unfold updateSounds_end. rewrite D.
  cbn [bind throw try_catch]. rewrite (refresh_report self res P).
  destruct (Client.onerror self); reflexivity.
Qed.

Lemma updateSounds_end_cases (self : Client.t) (data : string)
      (res : option response) :
  (exists j l s,
      JSON_parse data = Some j
      /\ errors self (JStr data) res = (l, Ret tt)
      /\ get_member j "sounds" = ret s
      /\ updateSounds_end self data res = (l, Ret (Client.with_sounds self s)))
  \/ (exists l l' r,
         bind (errors self (JStr "Pushover: parsing sound data failed") res)
              (fun _ => ret self) = (l', r)
         /\ updateSounds_end self data res = ((l ++ l')%list, r)).
Proof.
  unfold updateSounds_end. destruct (JSON_parse data) as [j|] eqn:D.
  - cbn [bind ret app].
    destruct (errors self (JStr data) res) as [l [[]|e]] eqn:E.
    + assert (N : nullish j = false).
      { destruct j; try reflexivity;
          rewrite errors_parsed, D in E; discriminate E. }
      destruct (get_member_ret j "sounds" N) as [s Gs]. left.
      exists j, l, s. split; [reflexivity|]. split; [reflexivity|].
      split; [exact Gs|]. rewrite Gs. cbn. now rewrite !app_nil_r.
    + right. cbn [try_catch].
      destruct (bind (errors self _ res) (fun _ => ret self)) as [l' r].
      now exists l, l', r.
  - right. cbn [bind throw try_catch].
    destruct (bind (errors self _ res) (fun _ => ret self)) as [l' r].
    now exists [], l', r.
Qed.

(** X19.  With an [onerror] handler configured the [end] listener of the
    refresh never throws: it returns a client that differs from the old
    one in the sound table at most. *)
Theorem updateSounds_end_handled (self : Client.t) (data : string)
        (res : option response) :
  JSON_parse "Pushover: parsing sound data failed" = None ->
  Client.onerror self = true ->
  exists l self',
    updateSounds_end self data res = (l, Ret self')
    /\ same_settings self self'.
Proof.
  intros P O.
  destruct (updateSounds_end_cases self data res)
    as [(j & l & s & _ & _ & _ & E) | (l & l' & r & B & E)].
  - exists l, (Client.with_sounds self s). split; [exact E|].
    apply with_sounds_settings.
  - rewrite (refresh_report self res P), O in B. injection B as <- <-.
    eexists. exists self. split; [exact E | apply same_settings_refl].
Qed.

(** X20.  A refresh response that parses to an object without a [sounds]
    member and passes the error check (for a client with handler: any such
    object, an error report of the service included) replaces the table by
    [undefined]. *)
Theorem updateSounds_end_without_sounds (self : Client.t) (data : string)
        (res : option response) (props : list (string * jsval)) :
  JSON_parse data = Some (JObj props) ->
  Obj.get props "sounds" = None ->
  (result (errors self (JStr data) res) = Ret tt
   -> result (updateSounds_end self data res)
      = Ret (Client.with_sounds self JUndefined))
  /\ (Client.onerror self = true
      -> result (updateSounds_end self data res)
         = Ret (Client.with_sounds self JUndefined)).
Proof.
  intros D G.
  assert (A : result (errors self (JStr data) res) = Ret tt
              -> result (updateSounds_end self data res)
                 = Ret (Client.with_sounds self JUndefined)).
  { intro R. unfold updateSounds_end. rewrite D. cbn [bind ret app].
    destruct (errors self (JStr data) res) as [l [[]|e]];
      [|discriminate R].
    cbn [get_member]. rewrite G. reflexivity. }
  split; [exact A|]. intro O. apply A.
  rewrite errors_parsed, D. cbn [bind ret].
  destruct (check_handled self (JObj props) res O eq_refl) as (l0 & E & _).
  now rewrite E.
Qed.

Lemma updateSounds_step_settings (self self' : Client.t) (r r' : refresh)
      (ev : event) :
  result (updateSounds_step (self, r) ev) = Ret (self', r') ->
  same_settings self self'.
Proof.
  unfold updateSounds_step.
  destruct ev as [res|chunk| |e]; destruct (r_res r) as [res0|];
    try (intro E; injection E as <- _; apply same_settings_refl).
  - destruct (updateSounds_end_cases self (r_data r) (Some res0))
      as [(j & l & s & _ & _ & _ & E) | (l & l' & rr & B & E)];
      rewrite E; cbn [bind ret].
    + intro R. injection R as <- _. apply with_sounds_settings.
    + destruct (errors self _ (Some res0)) as [l0 [[]|e0]]; cbn in B;
        injection B as _ <-; cbn; intro R;
        [injection R as <- _; apply same_settings_refl | discriminate R].
  - unfold updateSounds_error.
    destruct (errors self e None) as [l [[]|e0]]; cbn; intro R;
      [injection R as <- _; apply same_settings_refl | discriminate R].
  - unfold updateSounds_error.
    destruct (errors self e None) as [l [[]|e0]]; cbn; intro R;
      [injection R as <- _; apply same_settings_refl | discriminate R].
Qed.

(** X21.  Whatever events the refresh requests deliver, in whatever
    order, the client keeps its boundary, its credentials, its options and
    its handlers: the refresh writes the sound table and nothing else. *)
Theorem refresh_keeps_settings (evs : list event) (self : Client.t)
        (r : refresh) :
  same_settings self (fst (snd (deliver updateSounds_step (self, r) evs))).
Proof.
  revert self r. induction evs as [|ev evs IH]; intros self r;
    [apply same_settings_refl|].
  cbn [deliver].
  destruct (updateSounds_step (self, r) ev) as [l [[self' r']|e]] eqn:E.
  - pose proof (updateSounds_step_settings self self' r r' ev) as S.
    rewrite E in S. specialize (S eq_refl). specialize (IH self' r').
    destruct (deliver updateSounds_step (self', r') evs) as [l' s'].
    cbn [fst snd] in *. eapply same_settings_trans; eassumption.
  - specialize (IH self r).
    destruct (deliver updateSounds_step (self, r) evs) as [l' s'].
    exact IH.
Qed.

End RefreshFurther.

Lemma updateSounds_end_unparsable_witness :
  updateSounds_end (H := Fragment.node) handled_client "<html>502</html>"
                   (Some r200)
  = ([Onerror (EThrown (SyntaxError "Pushover: parsing sound data failed"))
              (Some r200)], Ret handled_client)
  /\ updateSounds_end (H := Fragment.node) bare_client "<html>502</html>"
                      (Some r200)
     = ([], Throw (TypeError "this.onerror is not a function")).
Proof.
  split.
  - apply (updateSounds_end_unparsable (H := Fragment.node) handled_client
                                       "<html>502</html>" (Some r200));
      reflexivity.
  - apply (updateSounds_end_unparsable (H := Fragment.node) bare_client
                                       "<html>502</html>" (Some r200));
      reflexivity.
Defined.

Lemma updateSounds_end_handled_witness :
  exists l self',
    updateSounds_end (H := Fragment.node) handled_client "null" (Some r200)
    = (l, Ret self')
    /\ same_settings handled_client self'.
Proof.
  apply (updateSounds_end_handled (H := Fragment.node) handled_client "null"
                                  (Some r200)); reflexivity.
Defined.

Lemma updateSounds_end_without_sounds_witness :
  result (updateSounds_end (H := Fragment.node) handled_client
                           invalid_token_body (Some r400))
  = Ret (Client.with_sounds handled_client JUndefined)
  /\ result (updateSounds_end (H := Fragment.node) bare_client
                              status_only_body (Some r200))
     = Ret (Client.with_sounds bare_client JUndefined).
Proof.
  split.
  - apply (proj2 (updateSounds_end_without_sounds
                    (H := Fragment.node) handled_client invalid_token_body
                    (Some r400)
                    [("status", JNum (S754_zero false));
                     ("errors", JArr [JStr "application token is invalid"])]
                    eq_refl eq_refl)).
    reflexivity.
  - apply (proj1 (updateSounds_end_without_sounds
                    (H := Fragment.node) bare_client status_only_body
                    (Some r200)
                    [("status", JNum (S754_finite false 1 Z0))]
                    eq_refl eq_refl)).
    reflexivity.
Defined.

(** ** The events of send, further *)

Lemma other_calls_app (l l' : list call) :
  other_calls (l ++ l') = (other_calls l ++ other_calls l')%list.
Proof. apply filter_app. Qed.

Section EventsFurther.
Context `{Platform}.

Lemma send_step_indep (self : Client.t) (st1 st2 : pending) (ev : event) :
  resp st1 = resp st2 ->
  other_calls (calls (send_step self st1 ev))
  = other_calls (calls (send_step self st2 ev))
  /\ match result (send_step self st1 ev), result (send_step self st2 ev) with
     | Ret a, Ret b => resp a = resp b
     | Throw e1, Throw e2 => e1 = e2
     | _, _ => False
     end.
Proof.
  destruct st1 as [f1 r1], st2 as [f2 r2]. cbn [resp]. intro R. subst r2.
  destruct ev as [res|chunk| |e].
  - unfold send_step. cbn [resp fn].
    destruct (Client.debug self); cbn; split; reflexivity.
  - unfold send_step. cbn [resp fn]. destruct r1 as [[res0 data]|];
      cbn; split; reflexivity.
  - destruct r1 as [[res0 data]|].
    + rewrite (send_step_End self {| fn := f1; resp := Some (res0, data) |}
                             res0 data eq_refl).
      rewrite (send_step_End self {| fn := f2; resp := Some (res0, data) |}
                             res0 data eq_refl).
      destruct (errors self (JStr data) (Some res0)) as [l [[]|e]];
        unfold calls, result; cbn [fst snd fn resp].
      * rewrite !other_calls_app. split; [|reflexivity].
        f_equal. now destruct f1, f2.
      * now split.
    + unfold send_step. cbn. split; reflexivity.
  - unfold send_step. cbn [resp fn].
    destruct f1, f2; cbn; split; reflexivity.
Qed.

Lemma deliver_indep (self : Client.t) (evs : list event) (st1 st2 : pending) :
  resp st1 = resp st2 ->
  other_calls (fst (deliver (send_step self) st1 evs))
  = other_calls (fst (deliver (send_step self) st2 evs)).
Proof.
  revert st1 st2. induction evs as [|ev evs IH]; intros st1 st2 R;
    [reflexivity|].
  cbn [deliver]. destruct (send_step_indep self st1 st2 ev R) as [C Q].
  destruct (send_step self st1 ev) as [l1 [a|e1]];
    destruct (send_step self st2 ev) as [l2 [b|e2]];
    unfold calls, result in C, Q; cbn [fst snd] in C, Q; try contradiction.
  - specialize (IH a b Q).
    destruct (deliver (send_step self) a evs) as [la sa].
    destruct (deliver (send_step self) b evs) as [lb sb].
    cbn [fst] in *. now rewrite !other_calls_app, C, IH.
  - subst e2. specialize (IH st1 st2 R).
    destruct (deliver (send_step self) st1 evs) as [la sa].
    destruct (deliver (send_step self) st2 evs) as [lb sb].
    cbn [fst] in *. rewrite !other_calls_app, C. f_equal.
    cbn [other_calls filter]. f_equal. exact IH.
Qed.

(** X22.  Whether a completion handler was passed to [send] changes
    nothing else: for every sequence of events the calls of [onerror], the
    lines logged and the exceptions left uncaught are the same with and
    without handler. *)
Theorem send_events_handler_independent (self : Client.t)
        (evs : list event) :
  other_calls (send_events self true evs)
  = other_calls (send_events self false evs).
Proof. unfold send_events. now apply deliver_indep. Qed.

(** The log of a response that arrives in chunks and ends. *)
Lemma success_path_log (self : Client.t) (has_fn : bool) (res : response)
      (chunks : list string) :
  Client.debug self = false ->
  send_events self has_fn (Response res :: map Data chunks ++ [End])
  = match errors self (JStr (fold_left append chunks "")) (Some res) with
    | (l, Ret _) =>
        (l ++ if has_fn
              then [Fn JUndefined (Some (fold_left append chunks ""))
                       (Some res)]
              else [])%list
    | (l, Throw e) => (l ++ [Uncaught e])%list
    end.
Proof.
  intro D. unfold send_events. cbn [deliver].
  assert (S : send_step self {| fn := has_fn; resp := None |} (Response res)
              = ([], Ret {| fn := has_fn; resp := Some (res, "") |})).
  { unfold send_step. rewrite D. reflexivity. }
  rewrite S, deliver_app.
  rewrite (deliver_chunks self chunks _ res "") by reflexivity.
  cbn [fn deliver].
  rewrite (send_step_End self _ res (fold_left append chunks ""))
    by reflexivity.
  destruct (errors self (JStr (fold_left append chunks "")) (Some res))
    as [le [[]|ex]]; cbn [fst snd fn app]; now rewrite ?app_nil_r.
Qed.

(** X23.  When the response carries an error list and a handler is
    configured, [onerror] is called first, with the first error, and the
    completion handler is called after it with [undefined] as its error:
    the error list reaches the caller of [send] only through the body. *)
Theorem send_events_error_list (self : Client.t) (res : response)
        (chunks : list string) (d e e0 : jsval) :
  Client.debug self = false -> Client.onerror self = true ->
  JSON_parse (fold_left append chunks "") = Some d ->
  get_member d "errors" = ret e -> truthy e = true ->
  get_member e "0" = ret e0 ->
  send_events self true (Response res :: map Data chunks ++ [End])
  = [Onerror (EVal e0) (Some res);
     Fn JUndefined (Some (fold_left append chunks "")) (Some res)].
Proof.
  intros D O P G T G0. rewrite (success_path_log self true res chunks D).
  rewrite errors_parsed, P. cbn [bind ret]. rewrite G. cbn [bind ret].
  rewrite T, G0. cbn [bind ret]. rewrite O. reflexivity.
Qed.

(** X24.  A response whose body is the JSON text [null] reaches no
    handler at all: the check throws before the completion handler is
    called, also for a client with [onerror]. *)
Theorem send_events_null_body (self : Client.t) (res : response)
        (chunks : list string) :
  Client.debug self = false ->
  JSON_parse (fold_left append chunks "") = Some JNull ->
  exists m,
    send_events self true (Response res :: map Data chunks ++ [End])
    = [Uncaught (TypeError m)].
Proof.
  intros D P. rewrite (success_path_log self true res chunks D).
  rewrite errors_parsed, P. eexists. reflexivity.
Qed.

End EventsFurther.

Lemma send_events_error_list_witness :
  send_events (H := Fragment.node) handled_client true
              (Response r400 :: map Data ["{"; substring_from 1 invalid_token_body]
                 ++ [End])
  = [Onerror (EVal (JStr "application token is invalid")) (Some r400);
     Fn JUndefined (Some invalid_token_body) (Some r400)].
Proof.
  apply (send_events_error_list
           (H := Fragment.node) handled_client r400
           ["{"; substring_from 1 invalid_token_body]
           (JObj [("status", JNum (S754_zero false));
                  ("errors", JArr [JStr "application token is invalid"])])
           (JArr [JStr "application token is invalid"])
           (JStr "application token is invalid")); reflexivity.
Defined.

Lemma send_events_null_body_witness :
  exists m,
    send_events (H := Fragment.node) handled_client true
                (Response r200 :: map Data ["nu"; "ll"] ++ [End])
    = [Uncaught (TypeError m)].
Proof.
  apply (send_events_null_body (H := Fragment.node) handled_client r200
                               ["nu"; "ll"]); reflexivity.
Defined.
